(** * Identity graph consolidation: contacts, merge, enrichment, edges

    A shallow embedding of the contact-graph application:

    - [types.ts]: [RelatedPerson], [Contact], [SearchResult];
    - the Gemini service: [extractContactFromText], [searchPersonInfo],
      [enrichContactProfile], [mergeContactsSmartly];
    - the link derivation and the node visuals of the [NetworkGraph]
      component;
    - the actions of [App].

    A JavaScript string is modelled as the [string] that holds the UTF-8
    form of its text (a string with a lone surrogate has no such form; the
    texts the graph computes by cutting a name are therefore kept as code
    units); arrays as [list]; a [Set<string>] as [gset string]; a
    [Map] whose iteration order is observed as an insertion-ordered
    association list; a [Map] that is only looked up as a [gmap].  An
    [async] function is a function to [Outcome]: it either returns a value
    or throws. *)

From Stdlib Require Import Ascii String.
From stdpp Require Import base decidable option list strings gmap.

Local Open Scope string_scope.
Local Open Scope list_scope.

(** ** The two encodings of a text

    JavaScript counts and cuts a string by UTF-16 code units ([length],
    [substring], [charCodeAt]); the strings of this development hold UTF-8.
    [units] reads the code units off a string.  Equality, concatenation and
    the search for a text inside another do not depend on the encoding of a
    well-formed text and are carried out on the bytes. *)

Module Utf8.

Definition byte (n : Z) : ascii := ascii_of_N (Z.to_N n).

Definition code (a : ascii) : Z := Z.of_N (N_of_ascii a).

(** The UTF-8 form of the character with code point [cp]. *)
Definition encode (cp : Z) : string :=
  let tail k := byte (128 + Z.land (Z.shiftr cp k) 63) in
  if (cp <? 0x80)%Z then String (byte cp) EmptyString
  else if (cp <? 0x800)%Z then
    String (byte (192 + Z.shiftr cp 6)) (String (tail 0%Z) EmptyString)
  else if (cp <? 0x10000)%Z then
    String (byte (224 + Z.shiftr cp 12))
      (String (tail 6%Z) (String (tail 0%Z) EmptyString))
  else
    String (byte (240 + Z.shiftr cp 18))
      (String (tail 12%Z) (String (tail 6%Z) (String (tail 0%Z) EmptyString))).

(** The bits gathered so far, extended by those of a continuation byte. *)
Definition extend (bits : Z) (a : ascii) : Z :=
  (Z.shiftl bits 6 + Z.land (code a) 63)%Z.

(** The code units of one code point: itself, or a surrogate pair. *)
Definition unitsOf (cp : Z) : list Z :=
  if (cp <? 0x10000)%Z then [cp]
  else [0xD800 + Z.shiftr (cp - 0x10000) 10; 0xDC00 + Z.land (cp - 0x10000) 1023]%Z.

(** The UTF-16 code units of the text a string holds.  A sequence that the
    end of the string cuts short reads as U+FFFD. *)
Fixpoint units (s : string) : list Z :=
  match s with
  | EmptyString => []
  | String a s1 =>
      let n := code a in
      if (n <? 0x80)%Z then n :: units s1
      else
        match s1 with
        | EmptyString => [0xFFFD%Z]
        | String b s2 =>
            if (n <? 0xE0)%Z then extend (Z.land n 31) b :: units s2
            else
              match s2 with
              | EmptyString => [0xFFFD%Z]
              | String c s3 =>
                  if (n <? 0xF0)%Z
                  then extend (extend (Z.land n 15) b) c :: units s3
                  else
                    match s3 with
                    | EmptyString => [0xFFFD%Z]
                    | String d s4 =>
                        unitsOf (extend (extend (extend (Z.land n 7) b) c) d)
                        ++ units s4
                    end
              end
        end
  end.

End Utf8.

(** ** JavaScript string primitives

    [toLowerCase] is modelled on the letters A-Z; the characters outside
    ASCII are left as they are.  [trim] strips the white space and the line
    terminators of ECMAScript. *)

Module JS.

(** [s || d] on strings: the empty string is falsy. *)
Definition truthy (s : string) : bool :=
  match s with
  | EmptyString => false
  | String _ _ => true
  end.

(** [o || d] where [o] may be [undefined]. *)
Definition orElse (o : option string) (d : string) : string :=
  match o with
  | Some s => if truthy s then s else d
  | None => d
  end.

(** [arr.join(sep)]. *)
Fixpoint join (sep : string) (arr : list string) : string :=
  match arr with
  | [] => EmptyString
  | [s] => s
  | s :: rest => s ++ sep ++ join sep rest
  end.

(** [s.startsWith(p)]. *)
Fixpoint startsWith (p s : string) : bool :=
  match p, s with
  | EmptyString, _ => true
  | String a p', String b s' => if decide (a = b) then startsWith p' s' else false
  | String _ _, EmptyString => false
  end.

(** [s.includes(sub)]. *)
Fixpoint includes (sub s : string) : bool :=
  startsWith sub s ||
  match s with
  | EmptyString => false
  | String _ s' => includes sub s'
  end.

(** [toLowerCase] on one byte; the bytes below 128 are the ASCII characters
    in UTF-8. *)
Definition lowerAscii (a : ascii) : ascii :=
  let n := nat_of_ascii a in
  if (65 <=? n)%nat && (n <=? 90)%nat then ascii_of_nat (n + 32) else a.

Fixpoint toLowerCase (s : string) : string :=
  match s with
  | EmptyString => EmptyString
  | String a s' => String (lowerAscii a) (toLowerCase s')
  end.

Definition reverse (s : string) : string :=
  string_of_list_ascii (rev (list_ascii_of_string s)).

(** The code points of [WhiteSpace] (U+0009, U+000B, U+000C, U+FEFF and the
    space separators U+0020, U+00A0, U+1680, U+2000 to U+200A, U+202F,
    U+205F, U+3000) and of [LineTerminator] (U+000A, U+000D, U+2028,
    U+2029): what [trim] strips and [\s] matches. *)
Definition whiteSpace : list Z :=
  [0x9; 0xA; 0xB; 0xC; 0xD; 0x20; 0xA0; 0x1680;
   0x2000; 0x2001; 0x2002; 0x2003; 0x2004; 0x2005; 0x2006; 0x2007; 0x2008;
   0x2009; 0x200A; 0x2028; 0x2029; 0x202F; 0x205F; 0x3000; 0xFEFF]%Z.

(** [char] is the UTF-8 form of one of them. *)
Definition isWhiteSpace (char : string) : bool :=
  existsb (String.eqb char) (map Utf8.encode whiteSpace).

(** The bytes [a], [b], ... met in this order when reading forwards, or
    backwards from the end of a string, as a character. *)
Definition charOf (backwards : bool) (bytes : string) : string :=
  if backwards then reverse bytes else bytes.

(** Drops the white space [s] begins with; with [backwards], [s] is a string
    read from its end.  The UTF-8 forms of the white-space characters have
    one, two or three bytes, and no form begins or ends another. *)
Fixpoint strip (backwards : bool) (s : string) : string :=
  match s with
  | EmptyString => EmptyString
  | String a s1 =>
      if isWhiteSpace (String a EmptyString) then strip backwards s1
      else
        match s1 with
        | EmptyString => s
        | String b s2 =>
            if isWhiteSpace (charOf backwards (String a (String b EmptyString)))
            then strip backwards s2
            else
              match s2 with
              | EmptyString => s
              | String c s3 =>
                  if isWhiteSpace
                       (charOf backwards (String a (String b (String c EmptyString))))
                  then strip backwards s3
                  else s
              end
        end
  end.

Definition trimStart (s : string) : string := strip false s.

Definition trimEnd (s : string) : string := reverse (strip true (reverse s)).

Definition trim (s : string) : string := trimEnd (trimStart s).

(** [s] begins with a white-space character. *)
Definition spaceAhead (s : string) : bool :=
  match s with
  | EmptyString => false
  | String a s1 =>
      isWhiteSpace (String a EmptyString)
      || match s1 with
         | EmptyString => false
         | String b s2 =>
             isWhiteSpace (String a (String b EmptyString))
             || match s2 with
                | EmptyString => false
                | String c _ => isWhiteSpace (String a (String b (String c EmptyString)))
                end
         end
  end.

(** [s.replace(/pat/g, '')] for a literal pattern: the matches are found
    left to right and do not overlap.  [skip] counts the bytes of the
    current match still to be dropped. *)
Fixpoint removeAllFrom (pat : string) (skip : nat) (s : string) : string :=
  match s with
  | EmptyString => EmptyString
  | String a s' =>
      match skip with
      | S k => removeAllFrom pat k s'
      | O =>
          if truthy pat && startsWith pat s
          then removeAllFrom pat (String.length pat - 1) s'
          else String a (removeAllFrom pat 0 s')
      end
  end.

Definition removeAll (pat s : string) : string := removeAllFrom pat 0 s.

(** [a < b] on strings: lexicographic. *)
Definition lt (a b : string) : bool := String.ltb a b.

End JS.

(** The separator ['\n\n'] of the merged notes. *)
Definition blankLine : string := String "010" (String "010" EmptyString).

(** ** [types.ts] *)

(** An entry of [relatedPeople].  The entries of a contact may come from an
    oracle reply, and the response schemas require no key of an entry: the
    [relationship] is [None] when the entry holds no string under that key.
    The [name] is read as a string: a reply with an entry that has no string
    there is outside this reading. *)
Record RelatedPerson := mkRelatedPerson {
  rp_name : string;
  rp_relationship : option string
}.

Record Contact := mkContact {
  id : string;
  name : string;
  title : string;
  company : string;
  email : option string;
  phone : option string;
  location : option string;
  tags : list string;
  summary : string;
  notes : string;
  relatedPeople : list RelatedPerson;
  avatarUrl : option string
}.

Record SearchResult := mkSearchResult {
  sr_title : string;
  sr_snippet : string;
  sr_url : option string;
  sr_source : string
}.

#[global] Instance RelatedPerson_eq_dec : EqDecision RelatedPerson.
Proof. solve_decision. Defined.

#[global] Instance Contact_eq_dec : EqDecision Contact.
Proof. solve_decision. Defined.

#[global] Instance SearchResult_eq_dec : EqDecision SearchResult.
Proof. solve_decision. Defined.

(** [Partial<Contact>]: the object [JSON.parse] yields from an oracle reply,
    read at the fields of [Contact]; a key that is absent is [None]. *)
Record PartialContact := mkPartial {
  p_id : option string;
  p_name : option string;
  p_title : option string;
  p_company : option string;
  p_email : option string;
  p_phone : option string;
  p_location : option string;
  p_tags : option (list string);
  p_summary : option string;
  p_notes : option string;
  p_relatedPeople : option (list RelatedPerson);
  p_avatarUrl : option string
}.

#[global] Instance PartialContact_eq_dec : EqDecision PartialContact.
Proof. solve_decision. Defined.

(** The object [{}]. *)
Definition emptyObject : PartialContact :=
  mkPartial None None None None None None None None None None None None.

(** A [Contact] seen as a plain object: every required key is present. *)
Definition asObject (c : Contact) : PartialContact :=
  {| p_id := Some (id c); p_name := Some (name c); p_title := Some (title c);
     p_company := Some (company c); p_email := email c; p_phone := phone c;
     p_location := location c; p_tags := Some (tags c);
     p_summary := Some (summary c); p_notes := Some (notes c);
     p_relatedPeople := Some (relatedPeople c); p_avatarUrl := avatarUrl c |}.

(** [{ ...c, ...u }]: keys of [u] overwrite those of [c]. *)
Definition spread (c : Contact) (u : PartialContact) : Contact :=
  {| id := default (id c) (p_id u);
     name := default (name c) (p_name u);
     title := default (title c) (p_title u);
     company := default (company c) (p_company u);
     email := match p_email u with Some e => Some e | None => email c end;
     phone := match p_phone u with Some e => Some e | None => phone c end;
     location := match p_location u with Some e => Some e | None => location c end;
     tags := default (tags c) (p_tags u);
     summary := default (summary c) (p_summary u);
     notes := default (notes c) (p_notes u);
     relatedPeople := default (relatedPeople c) (p_relatedPeople u);
     avatarUrl := match p_avatarUrl u with Some e => Some e | None => avatarUrl c end |}.

(** [{ ...m, id: i, notes: n }]. *)
Definition withIdNotes (m : PartialContact) (i n : string) : PartialContact :=
  {| p_id := Some i; p_name := p_name m; p_title := p_title m;
     p_company := p_company m; p_email := p_email m; p_phone := p_phone m;
     p_location := p_location m; p_tags := p_tags m; p_summary := p_summary m;
     p_notes := Some n; p_relatedPeople := p_relatedPeople m;
     p_avatarUrl := p_avatarUrl m |}.

(** [{ ...c, relatedPeople: r }]. *)
Definition withRelatedPeople (c : Contact) (r : list RelatedPerson) : Contact :=
  {| id := id c; name := name c; title := title c; company := company c;
     email := email c; phone := phone c; location := location c;
     tags := tags c; summary := summary c; notes := notes c;
     relatedPeople := r; avatarUrl := avatarUrl c |}.

(** ** Outcomes of a call *)

(** What a JavaScript function can throw here. *)
Inductive Exn :=
  | Error (message : string)
  | ApiError (message : string)
  | TypeError (message : string).

Inductive Outcome (A : Type) :=
  | Returns (a : A)
  | Throws (e : Exn).
Arguments Returns {A} a.
Arguments Throws {A} e.

#[global] Instance Outcome_ret : MRet Outcome := fun A a => Returns a.

#[global] Instance Outcome_bind : MBind Outcome := fun A B k m =>
  match m with
  | Returns a => k a
  | Throws e => Throws e
  end.

#[global] Instance Outcome_fmap : FMap Outcome := fun A B f m =>
  match m with
  | Returns a => Returns (f a)
  | Throws e => Throws e
  end.

(** ** The external collaborators

    [JSON_parse s] is [None] when [JSON.parse(s)] throws a [SyntaxError] and
    [Some o] when it returns, [o] being the parsed value read at the keys of
    [Contact] with the types the response schema gives them (keys that
    [Contact] lacks are never read by the program); the schema requires no
    key of the reply and none of a related person, so a key may be absent,
    the [relationship] of a related person too; [URL_hostname u] is
    [new URL(u).hostname], [None] when the constructor throws; [Date_now k]
    and [Math_random k] are the texts of [Date.now()] and of
    [Math.random().toString(36).substr(2, 9)] at the [k]-th contact
    discovered in one enrichment. *)
Class Host := {
  JSON_parse : string -> option PartialContact;
  URL_hostname : string -> option string;
  Date_now : nat -> string;
  Math_random : nat -> string
}.

(** A grounding chunk of a search reply: [chunk.web?.uri], [chunk.web?.title]. *)
Record WebChunk := mkWeb { uri : option string; web_title : option string }.
Record GroundingChunk := mkChunk { web : option WebChunk }.

(** The reply of [ai.models.generateContent]: [response.text] and
    [response.candidates?.[0]?.groundingMetadata?.groundingChunks]. *)
Record Response := mkResponse {
  text : option string;
  groundingChunks : option (list GroundingChunk)
}.

(** The awaited oracle call either rejects or resolves with a response.
    The program builds a request and has no say in the answer, so the
    service functions below take the outcome of the call as an argument. *)
Inductive OracleCall :=
  | Rejects (e : Exn)
  | Resolves (response : Response).

(** ** The Gemini service *)

(** What [searchPersonInfo] returns: [{ summary, sources }]. *)
Record SearchInfo := mkSearchInfo {
  si_summary : string;
  si_sources : list SearchResult
}.

(** The evidence handed to [enrichContactProfile]. *)
Record EnrichmentContext := mkContext {
  ctx_webSummary : option string;
  ctx_validSources : option (list SearchResult);
  ctx_manualText : option string;
  ctx_manualImages : option (list string)
}.

(** A JavaScript [Map] whose iteration order is observed: entries in
    insertion order; setting a key that is present replaces its value in
    place. *)
Module OrderedMap.

Section Ops.
Context {K V : Type} `{EqDecision K}.

Definition t := list (K * V).

Fixpoint set (k : K) (v : V) (m : t) : t :=
  match m with
  | [] => [(k, v)]
  | (k', v') :: m' =>
      if decide (k = k') then (k, v) :: m' else (k', v') :: set k v m'
  end.

(** [new Map(entries)]. *)
Definition ofEntries (entries : list (K * V)) : t :=
  foldl (fun m e => set (fst e) (snd e) m) [] entries.

Definition keys (m : t) : list K := map fst m.

(** [Array.from(m.values())]. *)
Definition values (m : t) : list V := map snd m.

End Ops.

End OrderedMap.

Section GeminiService.
Context `{Host}.

(** [chunk.web?.uri] *)
Definition chunkUri (chunk : GroundingChunk) : option string :=
  web chunk ≫= uri.

(** The predicate of [groundingChunks.filter]: [chunk.web?.uri] is truthy. *)
Definition hasUri (chunk : GroundingChunk) : bool :=
  match chunkUri chunk with
  | Some u => JS.truthy u
  | None => false
  end.

(** The callback of [.map]: builds one [SearchResult]; [new URL] throws a
    [TypeError] on a string that is not a URL. *)
Definition toSearchResult (chunk : GroundingChunk) : Outcome SearchResult :=
  match chunkUri chunk ≫= URL_hostname with
  | Some host =>
      Returns {| sr_title := JS.orElse (web chunk ≫= web_title) "Web Source";
                 sr_snippet := "Click to visit source";
                 sr_url := chunkUri chunk;
                 sr_source := host |}
  | None => Throws (TypeError "Invalid URL")
  end.

(** [Array.from(new Map(sources.map(item => [item.url, item])).values())] *)
Definition uniqueSources (sources : list SearchResult) : list SearchResult :=
  OrderedMap.values (OrderedMap.ofEntries (map (fun item => (sr_url item, item)) sources)).

Definition searchPersonInfo (name company : string) (call : OracleCall)
  : Outcome SearchInfo :=
  match call with
  | Rejects e => Throws e
  | Resolves response =>
      let text := JS.orElse (text response) EmptyString in
      let groundingChunks := default [] (groundingChunks response) in
      sources ← mapM toSearchResult (filter (fun c => hasUri c = true) groundingChunks);
      mret {| si_summary := text; si_sources := uniqueSources sources |}
  end.

(** [jsonStr.replace(/```json/g, '').replace(/```/g, '').trim()] *)
Definition stripFences (jsonStr : string) : string :=
  JS.trim (JS.removeAll "```" (JS.removeAll "```json" jsonStr)).

(** The request is assembled from [currentContact] and [context]; the flow
    after the call does not depend on how. *)
Definition enrichContactProfile (currentContact : Contact)
    (context : EnrichmentContext) (call : OracleCall) : Outcome Contact :=
  match call with
  | Rejects e => Throws e
  | Resolves response =>
      let jsonStr := stripFences (JS.orElse (text response) "{}") in
      match JSON_parse jsonStr with
      | Some updates => Returns (spread currentContact updates)
      | None => Returns currentContact
      end
  end.

(** The result is typed [Contact] in the source but is the object
    [{ ...mergedData, id, notes }], whose other keys are those of the reply:
    it is a [PartialContact]. *)
Definition mergeContactsSmartly (contacts : list Contact) (call : OracleCall)
  : Outcome PartialContact :=
  match contacts with
  | [] => Throws (Error "No contacts to merge")
  | [only] => Returns (asObject only)
  | first :: _ =>
      let targetId := id first in
      match call with
      | Rejects e => Throws e
      | Resolves response =>
          let jsonStr := JS.orElse (text response) "{}" in
          match JSON_parse jsonStr with
          | Some mergedData =>
              Returns (withIdNotes mergedData targetId
                         (JS.join blankLine (map notes contacts)))
          | None => Returns (asObject first)
          end
      end
  end.

End GeminiService.

(** ** The links of [NetworkGraph] *)

Record Link := mkLink {
  source : string;
  target : string;
  value : nat;
  type : option string
}.

#[global] Instance Link_eq_dec : EqDecision Link.
Proof. solve_decision. Defined.

(** [new Map(contacts.map(c => [c.name, c.id]))]: a later contact with the
    same name overwrites the earlier one. *)
Definition contactMap (contacts : list Contact) : gmap string string :=
  foldl (fun m c => <[name c := id c]> m) ∅ contacts.

(** Link by explicit [relatedPeople]. *)
Definition explicitLinks (byName : gmap string string) (src : Contact) : list Link :=
  flat_map
    (fun rel =>
       match byName !! rp_name rel with
       | Some targetId =>
           if JS.truthy targetId
           then [mkLink (id src) targetId 2 (rp_relationship rel)]
           else []
       | None => []
       end)
    (relatedPeople src).

(** The body of the inner loop, for one [src] and one [tgt]. *)
Definition companyLink (src tgt : Contact) : list Link :=
  if bool_decide (id src ≠ id tgt) && bool_decide (company src = company tgt)
  then if JS.lt (id src) (id tgt)
       then [mkLink (id src) (id tgt) 1 (Some "Colleague")]
       else []
  else [].

(** Link by implicit company. *)
Definition companyLinks (contacts : list Contact) (src : Contact) : list Link :=
  if JS.truthy (company src)
  then flat_map (companyLink src) contacts
  else [].

(** The array [links] after [contacts.forEach]. *)
Definition links (contacts : list Contact) : list Link :=
  flat_map
    (fun src => explicitLinks (contactMap contacts) src ++ companyLinks contacts src)
    contacts.

(** ** The actions of [App] *)

Inductive EnrichMode := WEB | MANUAL.

(** The calls to [alert] that the two actions make. *)
Inductive Alert :=
  | AlertDiscovered (count : nat)
  | AlertUpdated
  | AlertUpdateFailed.

Record AppState := mkState {
  contacts : list Contact;
  selectedContactId : option string;
  enrichMode : EnrichMode;
  isSearching : bool;
  searchResults : option SearchInfo;
  ignoredSourceUrls : gset string;
  manualText : string;
  manualImages : list string;
  showRelModal : bool;
  relTargetId : string;
  relType : string;
  alerts : list Alert
}.

(** [contacts.find(c => c.id === selectedContactId)] *)
Definition findById (i : string) (cs : list Contact) : option Contact :=
  List.find (fun c => bool_decide (id c = i)) cs.

Definition selectedContact (st : AppState) : option Contact :=
  i ← selectedContactId st; findById i (contacts st).

(** The predicate [s => s.url && !ignoredSourceUrls.has(s.url)]. *)
Definition notIgnored (ignored : gset string) (s : SearchResult) : bool :=
  match sr_url s with
  | Some u => JS.truthy u && bool_decide (u ∉ ignored)
  | None => false
  end.

(** The payload prepared by [handleEnrich]. *)
Definition payloadOf (st : AppState) : EnrichmentContext :=
  match enrichMode st, searchResults st with
  | WEB, Some results =>
      {| ctx_webSummary := Some (si_summary results);
         ctx_validSources :=
           Some (filter (fun s => notIgnored (ignoredSourceUrls st) s = true)
                        (si_sources results));
         ctx_manualText := None; ctx_manualImages := None |}
  | MANUAL, _ =>
      {| ctx_webSummary := None; ctx_validSources := None;
         ctx_manualText := Some (manualText st);
         ctx_manualImages := Some (manualImages st) |}
  | WEB, None => mkContext None None None None
  end.

(** [arr.forEach(callback)] where the callback updates the state [s] of the
    loop and may throw: the first exception ends the loop. *)
Fixpoint forEach {S A : Type} (callback : S -> A -> Outcome S) (s : S) (arr : list A)
  : Outcome S :=
  match arr with
  | [] => Returns s
  | a :: rest =>
      match callback s a with
      | Returns s' => forEach callback s' rest
      | Throws e => Throws e
      end
  end.

Section App.
Context `{Host}.

(** The contact pushed for a related person that is not known yet, named
    [relName]; [relationship] is the string [rel.relationship].  The words
    looked for are ASCII and no character outside ASCII has a letter of
    theirs in its lower-case form, so the lower case of A-Z decides
    [isOrg]. *)
Definition autoContact (enriched : Contact) (relName relationship : string) (k : nat)
  : Contact :=
  let lower := JS.toLowerCase relationship in
  let isOrg := JS.includes "organization" lower || JS.includes "company" lower in
  {| id := "auto-" ++ Date_now k ++ "-" ++ Math_random k;
     name := relName;
     title := if isOrg then "组织机构" else relationship;
     company := if isOrg then relName else EmptyString;
     email := None;
     phone := None;
     location := Some EmptyString;
     tags := ["AI发现"; if isOrg then "Organization" else "Person"];
     summary := "系统根据 " ++ name enriched ++ " 的资料自动发现的人脉关联："
                ++ relationship;
     notes := EmptyString;
     relatedPeople := [mkRelatedPerson (name enriched) (Some "Origin Connection")];
     avatarUrl := Some EmptyString |}.

(** One turn of [enriched.relatedPeople.forEach]: the state of the loop is
    the set [existingNames] and the array [newAutoContacts].  For a name
    that is not in the set the callback calls
    [rel.relationship.toLowerCase()], which throws a [TypeError] when
    [rel.relationship] is no string. *)
Definition discoverStep (enriched : Contact)
    (loop : gset string * list Contact) (rel : RelatedPerson)
  : Outcome (gset string * list Contact) :=
  let existingNames := fst loop in
  let newAutoContacts := snd loop in
  if decide (rp_name rel ∈ existingNames) then Returns loop
  else
    match rp_relationship rel with
    | None => Throws (TypeError "rel.relationship.toLowerCase")
    | Some relationship =>
        Returns ({[rp_name rel]} ∪ existingNames,
                 newAutoContacts
                 ++ [autoContact enriched (rp_name rel) relationship
                       (length newAutoContacts)])
    end.

(** Step 2 of [handleEnrich]: the new contacts for discovered people. *)
Definition discover (store : list Contact) (enriched : Contact)
  : Outcome (list Contact) :=
  let existingNames : gset string := {[name enriched]} ∪ list_to_set (map name store) in
  match forEach (discoverStep enriched) (existingNames, []) (relatedPeople enriched) with
  | Returns loop => Returns (snd loop)
  | Throws e => Throws e
  end.

(** Step 3 of [handleEnrich]: the updater given to [setContacts]. *)
Definition applyEnrichment (enriched : Contact) (newAutoContacts prev : list Contact)
  : list Contact :=
  map (fun c => if decide (id c = id enriched) then enriched else c) prev
  ++ newAutoContacts.

(** Steps 1 and 2, the part of the [try] block that can throw. *)
Definition enrichAndDiscover (st : AppState) (selected : Contact) (call : OracleCall)
  : Outcome (Contact * list Contact) :=
  match enrichContactProfile selected (payloadOf st) call with
  | Returns enriched =>
      match discover (contacts st) enriched with
      | Returns newAutoContacts => Returns (enriched, newAutoContacts)
      | Throws e => Throws e
      end
  | Throws e => Throws e
  end.

Definition handleEnrich (st : AppState) (call : OracleCall) : AppState :=
  match selectedContact st with
  | None => st
  | Some selected =>
      match enrichAndDiscover st selected call with
      | Returns (enriched, newAutoContacts) =>
          {| contacts := applyEnrichment enriched newAutoContacts (contacts st);
             selectedContactId := selectedContactId st;
             enrichMode := enrichMode st;
             isSearching := false;
             searchResults := None;
             ignoredSourceUrls := ignoredSourceUrls st;
             manualText := EmptyString;
             manualImages := [];
             showRelModal := showRelModal st;
             relTargetId := relTargetId st;
             relType := relType st;
             alerts := alerts st ++
               [if decide (0 < length newAutoContacts)
                then AlertDiscovered (length newAutoContacts)
                else AlertUpdated] |}
      | Throws e =>
          {| contacts := contacts st;
             selectedContactId := selectedContactId st;
             enrichMode := enrichMode st;
             isSearching := false;
             searchResults := searchResults st;
             ignoredSourceUrls := ignoredSourceUrls st;
             manualText := manualText st;
             manualImages := manualImages st;
             showRelModal := showRelModal st;
             relTargetId := relTargetId st;
             relType := relType st;
             alerts := alerts st ++ [AlertUpdateFailed] |}
      end
  end.

End App.

(** [c.relatedPeople.some(p => p.name === n)] *)
Definition namesPerson (n : string) (c : Contact) : bool :=
  existsb (fun p => bool_decide (rp_name p = n)) (relatedPeople c).

(** The callback of [prev.map] in [handleAddRelation]. *)
Definition addRelationTo (selected targetContact : Contact) (relTargetId relType : string)
    (c : Contact) : Contact :=
  let newRelationForSource := mkRelatedPerson (name targetContact) (Some relType) in
  let newRelationForTarget := mkRelatedPerson (name selected) (Some relType) in
  if decide (id c = id selected) then
    if namesPerson (name targetContact) c then c
    else withRelatedPeople c (relatedPeople c ++ [newRelationForSource])
  else if decide (id c = relTargetId) then
    if namesPerson (name selected) c then c
    else withRelatedPeople c (relatedPeople c ++ [newRelationForTarget])
  else c.

Definition handleAddRelation (st : AppState) : AppState :=
  match selectedContact st with
  | None => st
  | Some selected =>
      if negb (JS.truthy (relTargetId st)) || negb (JS.truthy (JS.trim (relType st)))
      then st
      else
        match findById (relTargetId st) (contacts st) with
        | None => st
        | Some targetContact =>
            {| contacts :=
                 map (addRelationTo selected targetContact (relTargetId st) (relType st))
                     (contacts st);
               selectedContactId := selectedContactId st;
               enrichMode := enrichMode st;
               isSearching := isSearching st;
               searchResults := searchResults st;
               ignoredSourceUrls := ignoredSourceUrls st;
               manualText := manualText st;
               manualImages := manualImages st;
               showRelModal := false;
               relTargetId := EmptyString;
               relType := EmptyString;
               alerts := alerts st |}
        end
  end.

(** ** More JavaScript primitives *)

Module Str.

(** [s.substring(0, n)] on a string of ASCII characters. *)
Fixpoint take (n : nat) (s : string) : string :=
  match n, s with
  | S k, String a s' => String a (take k s')
  | _, _ => EmptyString
  end.

(** [s.substring(n)] past [n] ASCII characters. *)
Fixpoint drop (n : nat) (s : string) : string :=
  match n, s with
  | S k, String _ s' => drop k s'
  | _, _ => s
  end.

(** [toUpperCase] on one byte below 128. *)
Definition upperAscii (a : ascii) : ascii :=
  let n := nat_of_ascii a in
  if (97 <=? n)%nat && (n <=? 122)%nat then ascii_of_nat (n - 32) else a.

Fixpoint toUpperCase (s : string) : string :=
  match s with
  | EmptyString => EmptyString
  | String a s' => String (upperAscii a) (toUpperCase s')
  end.

(** [s.split(sep)] for an ASCII separator. *)
Fixpoint split (sep : ascii) (s : string) : list string :=
  match s with
  | EmptyString => [EmptyString]
  | String a s' =>
      if decide (a = sep) then EmptyString :: split sep s'
      else match split sep s' with
           | piece :: pieces => String a piece :: pieces
           | [] => [String a EmptyString]
           end
  end.

(** One match of [https?:\/\/[^\s]+] at the start of [s]: the scheme and
    at least one code unit that is no white space. *)
Definition urlHere (s : string) : bool :=
  let nonSpaceAt t := JS.truthy t && negb (JS.spaceAhead t) in
  (JS.startsWith "http://" s && nonSpaceAt (drop 7 s))
  || (JS.startsWith "https://" s && nonSpaceAt (drop 8 s)).

(** [/(https?:\/\/[^\s]+)/g.test(s)] on a fresh regular expression. *)
Fixpoint hasUrl (s : string) : bool :=
  urlHere s ||
  match s with
  | EmptyString => false
  | String _ s' => hasUrl s'
  end.

End Str.

(** The bit operators of JavaScript work on 32-bit integers; the other
    arithmetic is on numbers, exact on the integers below [2^53]. *)
Module Int32.

(** [ToInt32] on an integer. *)
Definition wrap (z : Z) : Z := ((z + 2 ^ 31) mod 2 ^ 32 - 2 ^ 31)%Z.

(** [a << n] *)
Definition shl (a n : Z) : Z := wrap (Z.shiftl (wrap a) n).

(** [a & b] *)
Definition and (a b : Z) : Z := Z.land (wrap a) (wrap b).

(** The digit of [d] in [n.toString(16)]. *)
Definition hexDigit (d : Z) : ascii :=
  nth (Z.to_nat d) (list_ascii_of_string "0123456789abcdef") "0"%char.

(** The hexadecimal digits of a natural number, most significant first;
    [fuel] bounds their number. *)
Fixpoint hexDigits (fuel : nat) (n : Z) : string :=
  match fuel with
  | O => EmptyString
  | S fuel' =>
      if (n <? 16)%Z then String (hexDigit n) EmptyString
      else (hexDigits fuel' (n / 16) ++ String (hexDigit (n mod 16)) EmptyString)%string
  end.

(** [n.toString(16)] on an integer: a number below [2 * 2^k] has at most
    [k + 1] digits. *)
Definition toString16 (n : Z) : string :=
  if (n <? 0)%Z
  then String "-" (hexDigits (S (Z.to_nat (Z.log2 (- n)))) (- n))
  else hexDigits (S (Z.to_nat (Z.log2 n))) n.

End Int32.

(** ** The node visuals of [NetworkGraph] *)

(** One turn of the loop: [d.name.charCodeAt(i) + ((hash << 5) - hash)]. *)
Definition hashStep (hash code : Z) : Z := (code + (Int32.shl hash 5 - hash))%Z.

(** [hash] after the loop over the code units of the name. *)
Definition nameHash (codes : list Z) : Z := foldl hashStep 0%Z codes.

(** The [fill] of a node, from the code units of its name. *)
Definition fillOfCodes (codes : list Z) : string :=
  let c := Str.toUpperCase (Int32.toString16 (Int32.and (nameHash codes) 16777215)) in
  ("#" ++ Str.take (Z.to_nat (6 - Z.of_nat (String.length c))) "00000" ++ c)%string.

Definition nodeFill (d : Contact) : string := fillOfCodes (Utf8.units (name d)).

(** [s.length > most ? s.substring(0, kept) + '..' : s] on the code units
    of [s]. *)
Definition shorten (most kept : nat) (s : list Z) : list Z :=
  if (most <? length s)%nat then take kept s ++ Utf8.units ".." else s.

(** The text inside a node, as code units. *)
Definition nodeText (d : Contact) : list Z := shorten 6 5 (Utf8.units (name d)).

(** The [font-size] of the text inside a node, from [d.name.length]. *)
Definition fontSizeOf (len : nat) : string :=
  if (len <=? 2)%nat then "18px"
  else if (len <=? 3)%nat then "16px"
  else if (len <=? 4)%nat then "15px"
  else "13px".

Definition nodeFontSize (d : Contact) : string :=
  fontSizeOf (length (Utf8.units (name d))).

(** The label below a node, as code units. *)
Definition nodeInfo (d : Contact) : list Z :=
  let info := if JS.truthy (title d) then title d else company d in
  if negb (JS.truthy info) then []
  else shorten 8 7 (Utf8.units info).

(** The number a string of upper-case hexadecimal digits denotes, as
    [parseInt(s, 16)] reads it; [None] when a character is no such digit. *)
Definition hexDigitValue (a : ascii) : option Z :=
  let n := nat_of_ascii a in
  if (48 <=? n)%nat && (n <=? 57)%nat then Some (Z.of_nat (n - 48))
  else if (65 <=? n)%nat && (n <=? 70)%nat then Some (Z.of_nat (n - 55))
  else None.

Fixpoint hexValueFrom (acc : Z) (s : string) : option Z :=
  match s with
  | EmptyString => Some acc
  | String a s' =>
      match hexDigitValue a with
      | Some d => hexValueFrom (acc * 16 + d)%Z s'
      | None => None
      end
  end.

Definition hexValue (s : string) : option Z := hexValueFrom 0%Z s.

(** ** The other actions of [App] *)

(** [ViewMode] of [types.ts]. *)
Inductive ViewMode := LIST | GRAPH.

(** The calls to [alert] of the actions below. *)
Inductive Notice :=
  | NoticeExtractFailed
  | NoticeSearchFailed
  | NoticeMerged
  | NoticeMergeFailed.

(** The predicate of [filteredContacts]. *)
Definition matchesQuery (lowerQuery : string) (c : Contact) : bool :=
  JS.includes lowerQuery (JS.toLowerCase (name c))
  || JS.includes lowerQuery (JS.toLowerCase (company c))
  || existsb (fun t => JS.includes lowerQuery (JS.toLowerCase t)) (tags c).

Definition filteredContacts (contacts : list Contact) (searchQuery : string)
  : list Contact :=
  if negb (JS.truthy (JS.trim searchQuery)) then contacts
  else
    let lowerQuery := JS.toLowerCase searchQuery in
    filter (fun c => matchesQuery lowerQuery c = true) contacts.

(** The state of the "add contact" dialog. *)
Record AddDialog := mkAddDialog {
  showAddModal : bool;
  inputText : string;
  isProcessing : bool;
  previewContact : option PartialContact
}.

(** The contact [handleSaveContact] builds; [now] and [nowAvatar] are the
    texts of its two readings of [Date.now()]. *)
Definition newContactOf (preview : PartialContact) (now nowAvatar : string) : Contact :=
  {| id := now;
     name := JS.orElse (p_name preview) "Unknown";
     title := JS.orElse (p_title preview) EmptyString;
     company := JS.orElse (p_company preview) EmptyString;
     email := p_email preview;
     phone := p_phone preview;
     location := p_location preview;
     tags := default [] (p_tags preview);
     summary := JS.orElse (p_summary preview) EmptyString;
     notes := EmptyString;
     relatedPeople := default [] (p_relatedPeople preview);
     avatarUrl := Some ("https://picsum.photos/200/200?random=" ++ nowAvatar)%string |}.

(** [previewContact && previewContact.name] *)
Definition namedPreview (dialog : AddDialog) : option PartialContact :=
  match previewContact dialog with
  | Some preview =>
      match p_name preview with
      | Some n => if JS.truthy n then Some preview else None
      | None => None
      end
  | None => None
  end.

Definition handleSaveContact (now nowAvatar : string)
    (st : AppState) (dialog : AddDialog) (viewMode : ViewMode)
  : AppState * AddDialog * ViewMode :=
  match namedPreview dialog with
  | None => (st, dialog, viewMode)
  | Some preview =>
      let newContact := newContactOf preview now nowAvatar in
      ({| contacts := contacts st ++ [newContact];
          selectedContactId := Some (id newContact);
          enrichMode := enrichMode st;
          isSearching := isSearching st;
          searchResults := searchResults st;
          ignoredSourceUrls := ignoredSourceUrls st;
          manualText := manualText st;
          manualImages := manualImages st;
          showRelModal := showRelModal st;
          relTargetId := relTargetId st;
          relType := relType st;
          alerts := alerts st |},
       {| showAddModal := false; inputText := EmptyString;
          isProcessing := isProcessing dialog; previewContact := None |},
       LIST)
  end.

(** [confirmDelete]; the second component is [deleteTargetId].  The effect
    that clears the enrichment inputs when the selection changes is a
    separate hook and is not part of the action. *)
Definition confirmDelete (st : AppState) (deleteTargetId : option string)
  : AppState * option string :=
  match deleteTargetId with
  | None => (st, deleteTargetId)
  | Some target =>
      if negb (JS.truthy target) then (st, deleteTargetId)
      else
        let deletingActive := bool_decide (selectedContactId st = Some target) in
        ({| contacts := filter (fun c => id c ≠ target) (contacts st);
            selectedContactId :=
              if deletingActive then None else selectedContactId st;
            enrichMode := enrichMode st;
            isSearching := isSearching st;
            searchResults := if deletingActive then None else searchResults st;
            ignoredSourceUrls := ignoredSourceUrls st;
            manualText := manualText st;
            manualImages := manualImages st;
            showRelModal := showRelModal st;
            relTargetId := relTargetId st;
            relType := relType st;
            alerts := alerts st |},
         None)
  end.

(** The updater of [toggleSourceIgnore] and of [toggleMergeSelection]. *)
Definition toggle (x : string) (prev : gset string) : gset string :=
  if decide (x ∈ prev) then prev ∖ {[x]} else prev ∪ {[x]}.

Definition toggleSourceIgnore (url : string) (st : AppState) : AppState :=
  {| contacts := contacts st;
     selectedContactId := selectedContactId st;
     enrichMode := enrichMode st;
     isSearching := isSearching st;
     searchResults := searchResults st;
     ignoredSourceUrls := toggle url (ignoredSourceUrls st);
     manualText := manualText st;
     manualImages := manualImages st;
     showRelModal := showRelModal st;
     relTargetId := relTargetId st;
     relType := relType st;
     alerts := alerts st |}.

Definition toggleMergeSelection (i : string) (mergeSelection : gset string)
  : gset string :=
  toggle i mergeSelection.

(** [prev.filter((_, i) => i !== index)] *)
Definition handleRemoveImage (index : nat) (prev : list string) : list string :=
  map snd (filter (fun entry => fst entry ≠ index) (imap pair prev)).

(** The state of the merge mode. *)
Record MergeUi := mkMergeUi {
  isMergeMode : bool;
  mergeSelection : gset string;
  isMerging : bool
}.

(** What [handleConfirmMerge] leaves behind.  The merged profile is the
    object the service returned, so the new array of contacts is an array
    of objects. *)
Record MergeResult := mkMergeResult {
  mergedContacts : list PartialContact;
  mergedSelectedId : option string;
  mergedUi : MergeUi;
  mergedNotice : option Notice
}.

Section MoreActions.
Context `{Host}.

Definition handleSearchInfo (st : AppState) (call : OracleCall)
  : AppState * option Notice :=
  match selectedContact st with
  | None => (st, None)
  | Some selected =>
      let result := searchPersonInfo (name selected) (company selected) call in
      ({| contacts := contacts st;
          selectedContactId := selectedContactId st;
          enrichMode := WEB;
          isSearching := false;
          searchResults :=
            match result with
            | Returns info => Some info
            | Throws _ => None
            end;
          ignoredSourceUrls := ∅;
          manualText := manualText st;
          manualImages := manualImages st;
          showRelModal := showRelModal st;
          relTargetId := relTargetId st;
          relType := relType st;
          alerts := alerts st |},
       match result with
       | Returns _ => None
       | Throws _ => Some NoticeSearchFailed
       end)
  end.

(** With a URL in the text the reply is free text that should hold JSON;
    without, the reply is bound to the schema. *)
Definition extractContactFromText (input : string) (call : OracleCall)
  : Outcome PartialContact :=
  if Str.hasUrl input then
    match call with
    | Rejects e => Throws e
    | Resolves response =>
        match JSON_parse (stripFences (JS.orElse (text response) "{}")) with
        | Some o => Returns o
        | None =>
            Throws (Error
              "Failed to extract info from URL. Please try again or copy text manually.")
        end
    end
  else
    match call with
    | Rejects e => Throws e
    | Resolves response =>
        match JSON_parse (JS.orElse (text response) "{}") with
        | Some o => Returns o
        | None => Throws (Error "AI 解析失败，请重试")
        end
    end.


Definition handleConfirmMerge (st : AppState) (ui : MergeUi) (call : OracleCall)
  : MergeResult :=
  if (size (mergeSelection ui) <? 2)%nat
  then {| mergedContacts := map asObject (contacts st);
          mergedSelectedId := selectedContactId st;
          mergedUi := ui; mergedNotice := None |}
  else
    let contactsToMerge :=
      filter (fun c => id c ∈ mergeSelection ui) (contacts st) in
    match mergeContactsSmartly contactsToMerge call with
    | Returns mergedContact =>
        let others := filter (fun c => id c ∉ mergeSelection ui) (contacts st) in
        {| mergedContacts := mergedContact :: map asObject others;
           mergedSelectedId := p_id mergedContact;
           mergedUi := {| isMergeMode := false; mergeSelection := ∅;
                          isMerging := false |};
           mergedNotice := Some NoticeMerged |}
    | Throws _ =>
        {| mergedContacts := map asObject (contacts st);
           mergedSelectedId := selectedContactId st;
           mergedUi := {| isMergeMode := isMergeMode ui;
                          mergeSelection := mergeSelection ui;
                          isMerging := false |};
           mergedNotice := Some NoticeMergeFailed |}
    end.

End MoreActions.

(** [base64Data.split(',')[1] || base64Data], the image data sent to the
    oracle. *)
Definition cleanData (base64Data : string) : string :=
  JS.orElse (Str.split "," base64Data !! 1) base64Data.

(** A text as the oracle wraps it in a code fence: the opening fence with
    its language tag, a line feed, the text, a line feed, the closing
    fence. *)
Definition fenced (body : string) : string :=
  ("```json" ++ String "010" (body ++ String "010" "```"))%string.

(** ** What the specification says, for comparison *)

Module Spec.

(** "set union of all input profiles' tags": a list holds the union when it
    has exactly the tags that occur in some input. *)
Definition isTagsUnion (profiles : list Contact) (result : list string) : Prop :=
  forall t, t ∈ result <-> exists c, c ∈ profiles /\ t ∈ tags c.

(** "deduplicated by name (first occurrence wins)". *)
Fixpoint dedupByName (refs : list RelatedPerson) : list RelatedPerson :=
  match refs with
  | [] => []
  | r :: rest =>
      r :: filter (fun r' => rp_name r' ≠ rp_name r) (dedupByName rest)
  end.

(** "union of all input profiles' RelatedPersonRef lists, deduplicated by
    name". *)
Definition relatedPeopleUnion (profiles : list Contact) : list RelatedPerson :=
  dedupByName (flat_map relatedPeople profiles).

(** "joined with a blank-line separator; empty notes values contribute
    nothing". *)
Definition joinedNotes (profiles : list Contact) : string :=
  JS.join blankLine (filter (fun n => n ≠ EmptyString) (map notes profiles)).

(** "Deduplication of source lists by URL (keep first occurrence)". *)
Fixpoint dedupByUrlKeepFirst (sources : list SearchResult) : list SearchResult :=
  match sources with
  | [] => []
  | s :: rest =>
      s :: filter (fun s' => sr_url s' ≠ sr_url s) (dedupByUrlKeepFirst rest)
  end.

End Spec.

(** The distinct elements of a list, each at the place of its first
    occurrence. *)
Fixpoint firstOccurrences {A} `{EqDecision A} (l : list A) : list A :=
  match l with
  | [] => []
  | x :: rest => x :: filter (fun y => y ≠ x) (firstOccurrences rest)
  end.

(** All fields but [relatedPeople] agree. *)
Definition sameButRelatedPeople (c c' : Contact) : Prop :=
  id c' = id c /\ name c' = name c /\ title c' = title c /\
  company c' = company c /\ email c' = email c /\ phone c' = phone c /\
  location c' = location c /\ tags c' = tags c /\ summary c' = summary c /\
  notes c' = notes c /\ avatarUrl c' = avatarUrl c.

(** Every entry of the enriched contact that brings a new name (not the
    contact's own, not that of a stored contact, not mentioned by an entry
    before it) has a string under [relationship]. *)
Definition labelsNewMentions (store : list Contact) (enriched : Contact) : Prop :=
  forall pre rel post,
    relatedPeople enriched = pre ++ rel :: post ->
    rp_name rel <> name enriched ->
    ~ In (rp_name rel) (map name store) ->
    ~ In (rp_name rel) (map rp_name pre) ->
    is_Some (rp_relationship rel).

(** An inferred link between the contacts with ids [a] and [b]. *)
Definition colleague (a b : string) : Link := mkLink a b 1 (Some "Colleague").

(** ** Sample data *)

Module Sample.

(** [INITIAL_CONTACTS] of [App.tsx]. *)
Definition liMing : Contact :=
  {| id := "1"; name := "李明"; title := "高级产品经理"; company := "字节跳动";
     email := None; phone := None; location := Some "北京";
     tags := ["Product"; "AI"; "Mobile"];
     summary := "资深产品专家，专注于移动端应用与AI落地。";
     notes := "在2023年科技峰会遇到。";
     relatedPeople := [mkRelatedPerson "王强" (Some "Colleague")];
     avatarUrl := None |}.

Definition wangQiang : Contact :=
  {| id := "2"; name := "王强"; title := "技术总监"; company := "字节跳动";
     email := None; phone := None; location := Some "北京";
     tags := ["Engineering"; "Cloud"; "Backend"];
     summary := "负责基础架构团队，拥有十年后端开发经验。";
     notes := EmptyString;
     relatedPeople := [mkRelatedPerson "李明" (Some "Colleague")];
     avatarUrl := None |}.

Definition zhangWei : Contact :=
  {| id := "3"; name := "张伟"; title := "投资人"; company := "红杉资本";
     email := None; phone := None; location := Some "上海";
     tags := ["VC"; "Finance"; "Tech"];
     summary := "关注硬科技领域的早期投资。";
     notes := EmptyString;
     relatedPeople := [];
     avatarUrl := None |}.

Definition INITIAL_CONTACTS : list Contact := [liMing; wangQiang; zhangWei].

(** A contact with only the given fields filled in. *)
Definition person (i n org : string) (ts : list string) (rels : list RelatedPerson)
  : Contact :=
  {| id := i; name := n; title := EmptyString; company := org;
     email := None; phone := None; location := None; tags := ts;
     summary := EmptyString; notes := EmptyString; relatedPeople := rels;
     avatarUrl := None |}.

(** The scenarios of the specification. *)
Definition li : Contact := person "A" "Li" "Acme" ["x"] [].
Definition wang : Contact := person "B" "Wang" "Acme" ["x"; "y"] [].

(** A contact that mentions somebody who is not in the store. *)
Definition chen : Contact :=
  person "7" "Chen" "Initech" [] [mkRelatedPerson "Zhang" (Some "Advisor")].

(** The JSON text of a string without special characters. *)
Definition quoted (s : string) : string :=
  String "034" (s ++ String "034" EmptyString).

Definition zhangAdvisor : RelatedPerson := mkRelatedPerson "Zhang" (Some "Advisor").
Definition zhangMentor : RelatedPerson := mkRelatedPerson "Zhang" (Some "Mentor").

(** [{"tags":["z"]}] *)
Definition textTagsZ : string :=
  "{" ++ quoted "tags" ++ ":[" ++ quoted "z" ++ "]}".

(** [{"relatedPeople":[{"name":"Zhang","relationship":"Advisor"},
                       {"name":"Zhang","relationship":"Mentor"}]}] *)
Definition textTwoZhang : string :=
  "{" ++ quoted "relatedPeople" ++ ":[{"
      ++ quoted "name" ++ ":" ++ quoted "Zhang" ++ ","
      ++ quoted "relationship" ++ ":" ++ quoted "Advisor" ++ "},{"
      ++ quoted "name" ++ ":" ++ quoted "Zhang" ++ ","
      ++ quoted "relationship" ++ ":" ++ quoted "Mentor" ++ "}]}".

(** An entry that names Zhang and says nothing more, as the schema allows. *)
Definition zhangBare : RelatedPerson := mkRelatedPerson "Zhang" None.

(** [{"relatedPeople":[{"name":"Zhang"},{"name":"Zhang"}]}] *)
Definition textBareZhang : string :=
  "{" ++ quoted "relatedPeople" ++ ":[{"
      ++ quoted "name" ++ ":" ++ quoted "Zhang" ++ "},{"
      ++ quoted "name" ++ ":" ++ quoted "Zhang" ++ "}]}".

(** The replies the examples use, each with the object [JSON.parse] makes of
    it. *)
Definition replies : list (string * PartialContact) :=
  [ ("{}", emptyObject);
    (textTagsZ,
     mkPartial None None None None None None None (Some ["z"]) None None None None);
    (textTwoZhang,
     mkPartial None None None None None None None None None None
               (Some [zhangAdvisor; zhangMentor]) None);
    (textBareZhang,
     mkPartial None None None None None None None None None None
               (Some [zhangBare; zhangBare]) None) ].

(** A reply that is no JSON text. *)
Definition textApology : string := "Sorry, I could not find anything.".

(** The URLs the examples use, each with its host name. *)
Definition hostnames : list (string * string) :=
  [ ("https://example.com/li", "example.com");
    ("https://news.example.org/a?id=1", "news.example.org") ].

Definition lookupText {V} (table : list (string * V)) (s : string) : option V :=
  snd <$> List.find (fun e => bool_decide (fst e = s)) table.

(** A host that agrees with [JSON.parse] and [new URL] on the texts above
    and on [textApology]; it is used on no other text. *)
#[local] Instance host : Host :=
  {| JSON_parse := lookupText replies;
     URL_hostname := lookupText hostnames;
     Date_now := fun _ => "1700000000000";
     Math_random := fun k => String (ascii_of_nat (97 + k mod 26)) "k3x9w2p0" |}.

Definition response (t : string) : OracleCall :=
  Resolves (mkResponse (Some t) None).

Definition chunk (u t : string) : GroundingChunk :=
  mkChunk (Some (mkWeb (Some u) (Some t))).

(** A store with one selected contact, about to be enriched from a pasted
    link (the oracle then answers in free text). *)
Definition state (cs : list Contact) (selected : string) : AppState :=
  {| contacts := cs; selectedContactId := Some selected; enrichMode := MANUAL;
     isSearching := false; searchResults := None; ignoredSourceUrls := ∅;
     manualText := "https://example.com/li"; manualImages := [];
     showRelModal := false;
     relTargetId := EmptyString; relType := EmptyString; alerts := [] |}.

(** The relation dialog filled in for the selected contact. *)
Definition relating (cs : list Contact) (selected targetId label : string) : AppState :=
  {| contacts := cs; selectedContactId := Some selected; enrichMode := WEB;
     isSearching := false; searchResults := None; ignoredSourceUrls := ∅;
     manualText := EmptyString; manualImages := []; showRelModal := true;
     relTargetId := targetId; relType := label; alerts := [] |}.

End Sample.

(** * Properties *)

(** ** Strings *)

Lemma string_length_app (a b : string) :
  String.length (a ++ b)%string = String.length a + String.length b.
Proof. induction a as [|ch a IH]; simpl; [reflexivity | now rewrite IH]. Qed.

Lemma join_length (sep : string) (arr : list string) :
  String.length (JS.join sep arr)
  = sum_list (map String.length arr) + String.length sep * (length arr - 1).
Proof.
  induction arr as [|s [|s' rest] IH].
  - simpl. lia.
  - simpl. lia.
  - change (JS.join sep (s :: s' :: rest)) with (s ++ sep ++ JS.join sep (s' :: rest))%string.
    rewrite !string_length_app, IH. simpl. lia.
Qed.

Lemma lt_asym (a b : string) : JS.lt a b = true -> JS.lt b a = false.
Proof.
  unfold JS.lt, String.ltb. rewrite (String.compare_antisym b a).
  destruct (String.compare a b); simpl; congruence.
Qed.

Lemma lt_irrefl (a : string) : JS.lt a a = false.
Proof. destruct (JS.lt a a) eqn:E; [|reflexivity]. now rewrite (lt_asym _ _ E) in E. Qed.

Lemma lt_total (a b : string) : a ≠ b -> JS.lt a b = true \/ JS.lt b a = true.
Proof.
  intros Hne. unfold JS.lt, String.ltb. rewrite (String.compare_antisym b a).
  destruct (String.compare a b) eqn:E; simpl; auto.
  apply String.compare_eq_iff in E. contradiction.
Qed.

(** ** The multi-profile merge *)

Section MergeProperties.
Context `{Host}.

Lemma merge_resolved first second rest response :
  mergeContactsSmartly (first :: second :: rest) (Resolves response)
  = match JSON_parse (JS.orElse (text response) "{}") with
    | Some mergedData =>
        Returns (withIdNotes mergedData (id first)
                   (JS.join blankLine (map notes (first :: second :: rest))))
    | None => Returns (asObject first)
    end.
Proof. reflexivity. Qed.

(** C1 (amended): for at least two profiles, a reply that [JSON.parse]
    rejects makes the merge return the first profile as it is; a rejected
    oracle call is not caught: its exception leaves [mergeContactsSmartly]. *)
Theorem merge_fails_closed_on_unparseable_reply first second rest :
  (forall response,
      JSON_parse (JS.orElse (text response) "{}") = None ->
      mergeContactsSmartly (first :: second :: rest) (Resolves response)
      = Returns (asObject first))
  /\ (forall e,
      mergeContactsSmartly (first :: second :: rest) (Rejects e) = Throws e).
Proof.
  split.
  - intros response Hparse. rewrite merge_resolved, Hparse. reflexivity.
  - intros e. reflexivity.
Qed.

(** C3 (amended): when the reply parses, the tags of the merged result are
    the [tags] key of the reply, absent when the reply has none; the tags of
    the profiles are not consulted: any other profiles merged under the same
    reply get the same tags. *)
Theorem merge_tags_come_from_the_reply first second rest response mergedData :
  JSON_parse (JS.orElse (text response) "{}") = Some mergedData ->
  exists r,
    mergeContactsSmartly (first :: second :: rest) (Resolves response) = Returns r
    /\ p_tags r = p_tags mergedData
    /\ forall first' second' rest',
         exists r',
           mergeContactsSmartly (first' :: second' :: rest') (Resolves response)
           = Returns r'
           /\ p_tags r' = p_tags r.
Proof.
  intros Hparse. rewrite merge_resolved, Hparse.
  eexists. split; [reflexivity|]. split; [reflexivity|].
  intros first' second' rest'. rewrite merge_resolved, Hparse.
  eexists. split; reflexivity.
Qed.

(** C5 (amended): when the reply parses, the notes of the merged result are
    the notes of all the profiles, in input order, joined by a blank line;
    an empty note takes its place like any other, so [n] profiles always
    give [n - 1] separators. *)
Theorem merge_notes_join_every_input first second rest response mergedData :
  JSON_parse (JS.orElse (text response) "{}") = Some mergedData ->
  let profiles := first :: second :: rest in
  exists r joined,
    mergeContactsSmartly profiles (Resolves response) = Returns r
    /\ p_notes r = Some joined
    /\ joined = JS.join blankLine (map notes profiles)
    /\ String.length joined
       = sum_list (map (fun c => String.length (notes c)) profiles)
         + 2 * (length profiles - 1).
Proof.
  intros Hparse profiles. subst profiles. rewrite merge_resolved, Hparse.
  eexists. eexists. split; [reflexivity|]. split; [reflexivity|].
  split; [reflexivity|].
  rewrite join_length, length_map, map_map. reflexivity.
Qed.

(** C6: for at least two profiles the merge returns exactly when the oracle
    call resolves, and what it returns carries the id of the first profile,
    whether the reply parsed (whatever [id] it held) or not; it throws only
    the exception of a rejected call. *)
Theorem merge_keeps_survivor_id first second rest call :
  match mergeContactsSmartly (first :: second :: rest) call with
  | Returns r => p_id r = Some (id first) /\ exists response, call = Resolves response
  | Throws e => call = Rejects e
  end.
Proof.
  destruct call as [e|response].
  - reflexivity.
  - rewrite merge_resolved.
    destruct (JSON_parse _); (split; [reflexivity | eauto]).
Qed.

End MergeProperties.

(** C1, at the scenario's two profiles: an unparseable reply gives back the
    first profile, a rejected call throws. *)
Lemma merge_fails_closed_witness :
  JSON_parse (Host := Sample.host) (JS.orElse (Some Sample.textApology) "{}") = None
  /\ mergeContactsSmartly (H := Sample.host) [Sample.li; Sample.wang]
       (Sample.response Sample.textApology)
     = Returns (asObject Sample.li)
  /\ mergeContactsSmartly (H := Sample.host) [Sample.li; Sample.wang]
       (Rejects (ApiError "quota exceeded"))
     = Throws (ApiError "quota exceeded").
Proof.
  split; [reflexivity|]. split.
  - apply (proj1 (merge_fails_closed_on_unparseable_reply
                    (H := Sample.host) Sample.li Sample.wang [])).
    reflexivity.
  - apply (proj2 (merge_fails_closed_on_unparseable_reply
                    (H := Sample.host) Sample.li Sample.wang [])).
Defined.

(** C1 as stated fails: when the oracle call throws, the merge of two
    profiles throws too and does not return the first profile. *)
Lemma merge_oracle_rejection_escapes :
  mergeContactsSmartly (H := Sample.host) [Sample.li; Sample.wang]
    (Rejects (ApiError "quota exceeded"))
  = Throws (ApiError "quota exceeded")
  /\ mergeContactsSmartly (H := Sample.host) [Sample.li; Sample.wang]
       (Rejects (ApiError "quota exceeded"))
     <> Returns (asObject Sample.li).
Proof. split; [reflexivity | discriminate]. Qed.

(** C3, at the scenario's two profiles and a reply with the tag [z]. *)
Lemma merge_tags_witness :
  JSON_parse (Host := Sample.host) (JS.orElse (Some Sample.textTagsZ) "{}")
  = Some (mkPartial None None None None None None None (Some ["z"]) None None None None)
  /\ exists r,
      mergeContactsSmartly (H := Sample.host) [Sample.li; Sample.wang]
        (Sample.response Sample.textTagsZ) = Returns r
      /\ p_tags r = Some ["z"].
Proof.
  split; [reflexivity|].
  destruct (merge_tags_come_from_the_reply (H := Sample.host) Sample.li Sample.wang []
              (mkResponse (Some Sample.textTagsZ) None)
              (mkPartial None None None None None None None (Some ["z"])
                         None None None None)
              eq_refl) as (r & Hr & Htags & _).
  exists r. split; [exact Hr | exact Htags].
Defined.

(** C3 as stated fails: merging [A{tags:[x]}] and [B{tags:[x,y]}] when the
    oracle answers with the single tag [z] yields the tags [z], which are
    not the union of the inputs' tags. *)
Lemma merge_tags_not_the_union :
  exists r,
    mergeContactsSmartly (H := Sample.host) [Sample.li; Sample.wang]
      (Sample.response Sample.textTagsZ) = Returns r
    /\ p_tags r = Some ["z"]
    /\ ~ Spec.isTagsUnion [Sample.li; Sample.wang] ["z"].
Proof.
  eexists. split; [reflexivity|]. split; [reflexivity|].
  intros Hunion.
  assert (Hx : "x" ∈ ["z"]).
  { apply Hunion. exists Sample.li. split; [left | left]. }
  apply list_elem_of_singleton in Hx. discriminate.
Qed.

(** C5, at the first two of the initial contacts. *)
Lemma merge_notes_witness :
  JSON_parse (Host := Sample.host) (JS.orElse (Some "{}") "{}") = Some emptyObject
  /\ exists r joined,
      mergeContactsSmartly (H := Sample.host) [Sample.liMing; Sample.wangQiang]
        (Sample.response "{}") = Returns r
      /\ p_notes r = Some joined
      /\ joined = JS.join blankLine (map notes [Sample.liMing; Sample.wangQiang])
      /\ String.length joined
         = sum_list (map (fun c => String.length (notes c))
                         [Sample.liMing; Sample.wangQiang])
           + 2 * (length [Sample.liMing; Sample.wangQiang] - 1).
Proof.
  split; [reflexivity|].
  apply (merge_notes_join_every_input (H := Sample.host)
           Sample.liMing Sample.wangQiang [] (mkResponse (Some "{}") None) emptyObject).
  reflexivity.
Defined.

(** C5 as stated fails: the second of the initial contacts has empty notes,
    and merging the first two leaves a separator after the first one's
    notes, where the specification's join has none. *)
Lemma merge_notes_keep_empty_entries :
  exists r,
    mergeContactsSmartly (H := Sample.host) [Sample.liMing; Sample.wangQiang]
      (Sample.response "{}") = Returns r
    /\ p_notes r = Some (notes Sample.liMing ++ blankLine)%string
    /\ Spec.joinedNotes [Sample.liMing; Sample.wangQiang] = notes Sample.liMing
    /\ p_notes r <> Some (Spec.joinedNotes [Sample.liMing; Sample.wangQiang]).
Proof.
  eexists. split; [reflexivity|]. split; [reflexivity|].
  split; [reflexivity | discriminate].
Qed.

(** ** Enrichment and discovery *)

Lemma firstOccurrences_filter {A} `{EqDecision A}
    (P : A -> Prop) `{forall x, Decision (P x)} (l : list A) :
  firstOccurrences (filter P l) = filter P (firstOccurrences l).
Proof.
  induction l as [|x l IH]; [reflexivity|]. simpl.
  destruct (decide (P x)) as [Hx|Hx].
  - rewrite !filter_cons_True by assumption. simpl. f_equal.
    rewrite IH, !list_filter_filter. apply list_filter_iff. tauto.
  - rewrite !filter_cons_False by assumption. rewrite IH.
    symmetry. apply list_filter_filter_l. intros y Hy ->. contradiction.
Qed.

Section EnrichProperties.
Context `{Host}.

Implicit Types (seen : gset string) (found : list Contact) (rels : list RelatedPerson).


Lemma discover_loop_cons enriched seen found rel rels :
  forEach (discoverStep enriched) (seen, found) (rel :: rels)
  = if decide (rp_name rel ∈ seen)
    then forEach (discoverStep enriched) (seen, found) rels
    else match rp_relationship rel with
         | Some relationship =>
             forEach (discoverStep enriched)
               ({[rp_name rel]} ∪ seen,
                found ++ [autoContact enriched (rp_name rel) relationship (length found)])
               rels
         | None => Throws (TypeError "rel.relationship.toLowerCase")
         end.
Proof.
  simpl. unfold discoverStep at 1. simpl.
  destruct (decide _); [reflexivity|]. now destruct (rp_relationship rel).
Qed.



(** When every related name is in the set the loop changes nothing, whatever
    the entries hold besides. *)
Lemma discover_loop_known enriched rels : forall seen found,
  (forall rel, In rel rels -> rp_name rel ∈ seen) ->
  forEach (discoverStep enriched) (seen, found) rels = Returns (seen, found).
Proof.
  induction rels as [|rel rels IH]; intros seen found Hall; [reflexivity|].
  rewrite discover_loop_cons, decide_True by (apply Hall; now left).
  apply IH. intros rel' Hin. apply Hall. now right.
Qed.

(** The names of the contacts the loop creates. *)
Lemma discover_loop_names enriched rels : forall seen found loop,
  forEach (discoverStep enriched) (seen, found) rels = Returns loop ->
  map name (snd loop)
  = map name found
    ++ firstOccurrences (filter (fun n => n ∉ seen) (map rp_name rels)).
Proof.
  induction rels as [|rel rels IH]; intros seen found loop Hloop.
  - injection Hloop as <-. simpl. now rewrite app_nil_r.
  - rewrite discover_loop_cons in Hloop. simpl map.
    destruct (decide (rp_name rel ∈ seen)) as [Hseen|Hnew].
    + rewrite filter_cons_False by tauto. now apply IH.
    + destruct (rp_relationship rel) as [relationship|]; [|discriminate].
      rewrite filter_cons_True by assumption. rewrite (IH _ _ _ Hloop), map_app. simpl.
      rewrite <- app_assoc. simpl. do 2 f_equal.
      rewrite <- firstOccurrences_filter, list_filter_filter.
      f_equal. apply list_filter_iff. intros n.
      rewrite elem_of_union, elem_of_singleton. tauto.
Qed.

(** Every contact the loop creates is made from an entry that has a
    relationship. *)
Lemma discover_loop_shape enriched rels : forall seen found loop c,
  forEach (discoverStep enriched) (seen, found) rels = Returns loop ->
  c ∈ snd loop ->
  c ∈ found
  \/ exists rel relationship k,
       In rel rels /\ rp_relationship rel = Some relationship
       /\ c = autoContact enriched (rp_name rel) relationship k.
Proof.
  induction rels as [|rel rels IH]; intros seen found loop c Hloop Hc.
  - injection Hloop as <-. now left.
  - rewrite discover_loop_cons in Hloop.
    destruct (decide (rp_name rel ∈ seen)).
    + destruct (IH _ _ _ _ Hloop Hc) as [?|(rel' & r & k & Hrel' & Hr & ->)]; [now left|].
      right. exists rel', r, k. split; [now right | now split].
    + destruct (rp_relationship rel) as [relationship|] eqn:Hlabel; [|discriminate].
      destruct (IH _ _ _ _ Hloop Hc) as [Hold|(rel' & r & k & Hrel' & Hr & ->)].
      * apply elem_of_app in Hold as [?|Hlast]; [now left|].
        apply list_elem_of_singleton in Hlast. right.
        exists rel, relationship, (length found).
        split; [now left | now split].
      * right. exists rel', r, k. split; [now right | now split].
Qed.

(** The loop runs to its end exactly when every entry that brings a new name
    has a relationship. *)
Lemma discover_loop_returns enriched rels : forall seen found,
  (exists loop, forEach (discoverStep enriched) (seen, found) rels = Returns loop)
  <-> forall pre rel post,
        rels = pre ++ rel :: post ->
        rp_name rel ∉ seen -> ~ In (rp_name rel) (map rp_name pre) ->
        is_Some (rp_relationship rel).
Proof.
  induction rels as [|rel rels IH]; intros seen found.
  - split; [|intros _; now eexists].
    intros _ pre rel post Heq. now destruct pre.
  - rewrite discover_loop_cons.
    destruct (decide (rp_name rel ∈ seen)) as [Hseen|Hnew].
    + rewrite IH. split; intros Hall pre r post Heq Hr Hpre.
      * destruct pre as [|p pre]; injection Heq as -> ->; [contradiction|].
        apply (Hall pre r post eq_refl Hr). simpl in Hpre. tauto.
      * apply (Hall (rel :: pre) r post); [now rewrite Heq | assumption |].
        simpl. intros [Heq'|Hin]; [congruence | contradiction].
    + destruct (rp_relationship rel) as [relationship|] eqn:Hlabel.
      * rewrite IH. split; intros Hall pre r post Heq Hr Hpre.
        -- destruct pre as [|p pre]; injection Heq as -> ->; [now rewrite Hlabel|].
           simpl in Hpre. apply (Hall pre r post eq_refl); [|tauto].
           rewrite elem_of_union, elem_of_singleton.
           intros [Heq'|Hin]; [apply Hpre; left; congruence | contradiction].
        -- rewrite elem_of_union, elem_of_singleton in Hr.
           apply (Hall (rel :: pre) r post); [now rewrite Heq | tauto |].
           simpl. intros [Heq'|Hin]; [|contradiction]. apply Hr. left. congruence.
      * split.
        -- intros [loop Hloop]. discriminate.
        -- intros Hall.
           destruct (Hall [] rel rels eq_refl Hnew (fun absurd => absurd)) as [r Hr].
           congruence.
Qed.

Lemma existingNames_spec store enriched n :
  n ∈ ({[name enriched]} ∪ list_to_set (map name store) : gset string)
  <-> n = name enriched \/ In n (map name store).
Proof.
  rewrite elem_of_union, elem_of_singleton, elem_of_list_to_set, list_elem_of_In.
  reflexivity.
Qed.

Lemma discover_Returns store enriched found :
  discover store enriched = Returns found ->
  exists seen,
    forEach (discoverStep enriched)
      ({[name enriched]} ∪ list_to_set (map name store), []) (relatedPeople enriched)
    = Returns (seen, found).
Proof.
  unfold discover. destruct (forEach _ _ _) as [[seen found']|e]; [|discriminate].
  intros Heq. injection Heq as <-. now exists seen.
Qed.


Lemma discover_names store enriched found :
  discover store enriched = Returns found ->
  map name found
  = firstOccurrences
      (filter (fun n => n <> name enriched /\ n ∉ map name store)
              (map rp_name (relatedPeople enriched))).
Proof.
  intros Hfound. apply discover_Returns in Hfound as [seen Hloop].
  apply discover_loop_names in Hloop. simpl in Hloop. rewrite Hloop. f_equal.
  apply list_filter_iff. intros n.
  rewrite elem_of_union, elem_of_singleton, elem_of_list_to_set. tauto.
Qed.

Lemma discover_shape store enriched found c :
  discover store enriched = Returns found ->
  c ∈ found ->
  exists rel relationship k,
    In rel (relatedPeople enriched) /\ rp_relationship rel = Some relationship
    /\ c = autoContact enriched (rp_name rel) relationship k.
Proof.
  intros Hfound Hc. apply discover_Returns in Hfound as [seen Hloop].
  destruct (discover_loop_shape _ _ _ _ _ c Hloop Hc) as [Hnil|Hshape]; [|exact Hshape].
  now apply elem_of_nil in Hnil.
Qed.

Lemma discover_nothing store enriched :
  (forall rel, In rel (relatedPeople enriched) -> In (rp_name rel) (map name store)) ->
  discover store enriched = Returns [].
Proof.
  intros Hall. unfold discover. rewrite discover_loop_known; [reflexivity|].
  intros rel Hrel. rewrite existingNames_spec. right. now apply Hall.
Qed.

Lemma discover_returns_iff store enriched :
  (exists found, discover store enriched = Returns found)
  <-> labelsNewMentions store enriched.
Proof.
  unfold labelsNewMentions, discover.
  pose proof (discover_loop_returns enriched (relatedPeople enriched)
                ({[name enriched]} ∪ list_to_set (map name store)) []) as Hloop.
  split.
  - intros [found Hfound] pre rel post Heq Hself Hstore Hpre.
    apply (proj1 Hloop) with pre post; [|assumption| |assumption].
    + destruct (forEach _ _ _) as [loop|e]; [now exists loop | discriminate].
    + rewrite existingNames_spec. tauto.
  - intros Hall. destruct (proj2 Hloop) as [loop Hreturns].
    + intros pre rel post Heq Hnew Hpre. rewrite existingNames_spec in Hnew.
      apply (Hall pre rel post); tauto.
    + rewrite Hreturns. now eexists.
Qed.


End EnrichProperties.

(** ** The store *)

Lemma findById_Some i cs c : findById i cs = Some c -> In c cs /\ id c = i.
Proof.
  unfold findById. intros Hfind. apply find_some in Hfind as [Hin Hid].
  split; [assumption|]. now apply bool_decide_eq_true in Hid.
Qed.

Lemma selectedContact_Some st c :
  selectedContact st = Some c -> In c (contacts st) /\ selectedContactId st = Some (id c).
Proof.
  unfold selectedContact. destruct (selectedContactId st) as [i|]; [|discriminate].
  simpl. intros Hfind. apply findById_Some in Hfind as [Hin Hid]. now subst i.
Qed.

(** In a store with unique ids a contact is determined by its id. *)
Lemma unique_by_id cs a b :
  NoDup (map id cs) -> In a cs -> In b cs -> id a = id b -> a = b.
Proof.
  induction cs as [|c cs IH]; intros Hnodup Ha Hb Hid; [destruct Ha|].
  simpl in Hnodup. apply NoDup_cons in Hnodup as [Hfresh Hnodup].
  rewrite list_elem_of_In in Hfresh.
  destruct Ha as [Ha|Ha], Hb as [Hb|Hb]; subst.
  - reflexivity.
  - exfalso. apply Hfresh. rewrite Hid. now apply in_map.
  - exfalso. apply Hfresh. rewrite <- Hid. now apply in_map.
  - now apply IH.
Qed.

Lemma NoDup_ids cs : NoDup (map id cs) -> NoDup cs.
Proof.
  induction cs as [|c cs IH]; intros Hnodup; [apply NoDup_nil_2|].
  simpl in Hnodup. apply NoDup_cons in Hnodup as [Hfresh Hnodup].
  apply NoDup_cons. split; [|now apply IH].
  intros Hc. apply Hfresh. apply list_elem_of_In, in_map. now apply list_elem_of_In.
Qed.

Lemma replace_by_itself cs selected :
  NoDup (map id cs) -> In selected cs ->
  map (fun c => if decide (id c = id selected) then selected else c) cs = cs.
Proof.
  intros Hnodup Hsel. rewrite <- (map_id cs) at 2. apply map_ext_in.
  intros c Hc. destruct (decide (id c = id selected)) as [Hid|]; [|reflexivity].
  symmetry. now apply (unique_by_id cs).
Qed.



Section EnrichOutcome.
Context `{Host}.

Lemma handleEnrich_returned st selected enriched found call :
  selectedContact st = Some selected ->
  enrichContactProfile selected (payloadOf st) call = Returns enriched ->
  discover (contacts st) enriched = Returns found ->
  contacts (handleEnrich st call) = applyEnrichment enriched found (contacts st)
  /\ selectedContactId (handleEnrich st call) = selectedContactId st
  /\ alerts (handleEnrich st call)
     = alerts st ++ [if decide (0 < length found)
                     then AlertDiscovered (length found)
                     else AlertUpdated].
Proof.
  intros Hsel Henrich Hfound. unfold handleEnrich, enrichAndDiscover.
  rewrite Hsel, Henrich, Hfound. now split.
Qed.

(** An exception of the discovery is caught like one of the oracle call. *)
Lemma handleEnrich_thrown st selected enriched e call :
  selectedContact st = Some selected ->
  enrichContactProfile selected (payloadOf st) call = Returns enriched ->
  discover (contacts st) enriched = Throws e ->
  contacts (handleEnrich st call) = contacts st
  /\ selectedContactId (handleEnrich st call) = selectedContactId st
  /\ alerts (handleEnrich st call) = alerts st ++ [AlertUpdateFailed].
Proof.
  intros Hsel Henrich Hthrown. unfold handleEnrich, enrichAndDiscover.
  rewrite Hsel, Henrich, Hthrown. now split.
Qed.

(** C2 (amended): when the cleaned reply does not parse,
    [enrichContactProfile] raises nothing and returns the target unchanged,
    and [handleEnrich] runs the discovery on it.  When the discovery runs to
    its end, which it does exactly when every entry of the target that
    brings a new name has a relationship, a success is reported and, in a
    store with unique ids, every stored contact stays as it was and in
    place; after them comes one new contact for each distinct name among
    the target's related people that no stored contact bears, in the order
    of first mention.  When the discovery throws, the store stays as it was
    and the failure is reported.  When every related name is borne by a
    stored contact the contact list is exactly as before. *)
Theorem enrich_parse_failure_returns_target st selected response :
  selectedContact st = Some selected ->
  NoDup (map id (contacts st)) ->
  JSON_parse (stripFences (JS.orElse (text response) "{}")) = None ->
  let st' := handleEnrich st (Resolves response) in
  enrichContactProfile selected (payloadOf st) (Resolves response) = Returns selected
  /\ match discover (contacts st) selected with
     | Returns found =>
         contacts st' = contacts st ++ found
         /\ map name found
            = firstOccurrences
                (filter (fun n => n ∉ map name (contacts st))
                        (map rp_name (relatedPeople selected)))
         /\ exists a, alerts st' = alerts st ++ [a] /\ a <> AlertUpdateFailed
     | Throws _ =>
         contacts st' = contacts st
         /\ alerts st' = alerts st ++ [AlertUpdateFailed]
     end
  /\ ((exists found, discover (contacts st) selected = Returns found)
      <-> labelsNewMentions (contacts st) selected)
  /\ ((forall rel, In rel (relatedPeople selected) ->
         In (rp_name rel) (map name (contacts st))) ->
      contacts st' = contacts st).
Proof.
  intros Hsel Hnodup Hparse st'.
  assert (Henrich :
    enrichContactProfile selected (payloadOf st) (Resolves response) = Returns selected).
  { unfold enrichContactProfile. now rewrite Hparse. }
  destruct (selectedContact_Some _ _ Hsel) as [Hin _].
  assert (Hstore : forall found,
    discover (contacts st) selected = Returns found ->
    contacts st' = contacts st ++ found).
  { intros found Hfound.
    destruct (handleEnrich_returned _ _ _ _ _ Hsel Henrich Hfound) as [Hcontacts _].
    subst st'. rewrite Hcontacts. unfold applyEnrichment.
    now rewrite replace_by_itself. }
  split; [assumption|]. split; [|split].
  - destruct (discover (contacts st) selected) as [found|e] eqn:Hfound.
    + split; [now apply Hstore|]. split.
      * rewrite (discover_names _ _ _ Hfound). f_equal.
        apply list_filter_iff. intros n. split; [tauto|]. intros Hnew.
        split; [|assumption]. intros ->. apply Hnew.
        apply list_elem_of_In, in_map, Hin.
      * destruct (handleEnrich_returned _ _ _ _ _ Hsel Henrich Hfound) as (_ & _ & Halerts).
        eexists. split; [exact Halerts|]. now destruct (decide _).
    + destruct (handleEnrich_thrown _ _ _ _ _ Hsel Henrich Hfound) as (Hcontacts & _ & Halerts).
      now split.
  - apply discover_returns_iff.
  - intros Hknown. rewrite (Hstore []); [apply app_nil_r|].
    now apply discover_nothing.
Qed.


End EnrichOutcome.

(** C2, at a store whose selected contact mentions somebody unknown. *)
Lemma enrich_parse_failure_witness :
  let st := Sample.state [Sample.chen] "7" in
  let response := mkResponse (Some Sample.textApology) None in
  selectedContact st = Some Sample.chen
  /\ NoDup (map id (contacts st))
  /\ JSON_parse (Host := Sample.host) (stripFences (JS.orElse (text response) "{}")) = None
  /\ enrichContactProfile (H := Sample.host) Sample.chen (payloadOf st) (Resolves response)
     = Returns Sample.chen
  /\ map name (contacts (handleEnrich (H := Sample.host) st (Resolves response)))
     = ["Chen"; "Zhang"].
Proof.
  assert (Hnodup : NoDup (map id [Sample.chen])).
  { apply NoDup_cons. split; [apply not_elem_of_nil | apply NoDup_nil_2]. }
  split; [reflexivity|]. split; [exact Hnodup|]. split; [reflexivity|].
  destruct (enrich_parse_failure_returns_target (H := Sample.host)
              (Sample.state [Sample.chen] "7") Sample.chen
              (mkResponse (Some Sample.textApology) None)
              eq_refl Hnodup eq_refl) as (Henrich & Hdiscovery & _).
  split; [exact Henrich|].
  destruct Hdiscovery as (Hcontacts & _). rewrite Hcontacts. reflexivity.
Defined.

(** C2 as stated fails: the reply is no JSON, yet no error reaches the
    caller, the success alert is shown, and the store gains a contact. *)
Lemma enrich_parse_failure_mutates_store :
  let st := Sample.state [Sample.chen] "7" in
  let st' := handleEnrich (H := Sample.host) st (Sample.response Sample.textApology) in
  JSON_parse (Host := Sample.host) (stripFences Sample.textApology) = None
  /\ enrichContactProfile (H := Sample.host) Sample.chen (payloadOf st)
       (Sample.response Sample.textApology) = Returns Sample.chen
  /\ map name (contacts st) = ["Chen"]
  /\ map name (contacts st') = ["Chen"; "Zhang"]
  /\ alerts st' = [AlertDiscovered 1].
Proof. repeat split; reflexivity. Qed.



(** ** The links of the graph *)

Section Counting.
Context {X Y : Type} (eq_dec : forall a b : Y, {a = b} + {a <> b}).

Lemma count_occ_flat_map_none (f : X -> list Y) (y : Y) (l : list X) :
  (forall x, In x l -> ~ In y (f x)) ->
  count_occ eq_dec (flat_map f l) y = 0.
Proof.
  intros Hnone. apply count_occ_not_In. rewrite in_flat_map.
  intros (x & Hx & Hy). exact (Hnone x Hx Hy).
Qed.

(** When only one element of a duplicate-free list can produce [y], the
    occurrences of [y] are those it produces. *)
Lemma count_occ_flat_map_single (f : X -> list Y) (y : Y) (l : list X) (x0 : X) :
  NoDup l -> In x0 l ->
  (forall x, In x l -> x <> x0 -> ~ In y (f x)) ->
  count_occ eq_dec (flat_map f l) y = count_occ eq_dec (f x0) y.
Proof.
  induction l as [|x l IH]; intros Hnodup Hin Hothers; [destruct Hin|].
  apply NoDup_cons in Hnodup as [Hfresh Hnodup]. rewrite list_elem_of_In in Hfresh.
  simpl. rewrite count_occ_app. destruct Hin as [Heq|Hin].
  - subst x. rewrite count_occ_flat_map_none; [lia|].
    intros x Hx. apply Hothers; [now right|]. intros Heq. now subst x.
  - rewrite IH; [|assumption|assumption|].
    + rewrite (proj1 (count_occ_not_In eq_dec (f x) y)); [reflexivity|].
      apply Hothers; [now left|]. intros Heq. now subst x.
    + intros x' Hx'. apply Hothers. now right.
Qed.

End Counting.

Lemma in_explicitLinks byName src l :
  In l (explicitLinks byName src) -> value l = 2 /\ source l = id src.
Proof.
  unfold explicitLinks. rewrite in_flat_map. intros (rel & _ & Hl).
  destruct (byName !! rp_name rel) as [targetId|]; [|destruct Hl].
  destruct (JS.truthy targetId); [|destruct Hl].
  destruct Hl as [<-|[]]. now split.
Qed.

Lemma companyLink_emits src tgt :
  company src = company tgt -> JS.lt (id src) (id tgt) = true ->
  companyLink src tgt = [colleague (id src) (id tgt)].
Proof.
  intros Hcompany Hlt. unfold companyLink.
  rewrite (bool_decide_eq_true_2 (company src = company tgt)) by assumption.
  rewrite bool_decide_eq_true_2, Hlt; [reflexivity|].
  intros Hid. rewrite Hid, lt_irrefl in Hlt. discriminate.
Qed.

Lemma companyLink_silent src tgt :
  JS.lt (id src) (id tgt) = false -> companyLink src tgt = [].
Proof. intros Hlt. unfold companyLink. rewrite Hlt. now destruct (_ && _). Qed.

Lemma in_companyLink src tgt l :
  In l (companyLink src tgt) ->
  l = colleague (id src) (id tgt) /\ company src = company tgt
  /\ JS.lt (id src) (id tgt) = true.
Proof.
  unfold companyLink.
  destruct (bool_decide (id src ≠ id tgt)); [|intros []].
  destruct (bool_decide (company src = company tgt)) eqn:Hcompany; [|intros []].
  apply bool_decide_eq_true in Hcompany. simpl.
  destruct (JS.lt (id src) (id tgt)); [|intros []].
  intros [<-|[]]. auto.
Qed.

Lemma in_companyLinks cs src l :
  In l (companyLinks cs src) <->
  JS.truthy (company src) = true /\ exists tgt, In tgt cs /\ In l (companyLink src tgt).
Proof.
  unfold companyLinks. destruct (JS.truthy (company src)).
  - rewrite in_flat_map. tauto.
  - simpl. split; [tauto | intros [? _]; discriminate].
Qed.

(** The inferred links of the graph are those of the ordered pairs of
    stored contacts that share a company and whose ids are in order. *)
Lemma in_links_colleague cs a b :
  In (colleague a b) (links cs) <->
  exists A B, In A cs /\ In B cs /\ id A = a /\ id B = b
              /\ JS.truthy (company A) = true /\ company A = company B
              /\ JS.lt a b = true.
Proof.
  unfold links. rewrite in_flat_map. split.
  - intros (A & HA & Hl). apply in_app_or in Hl as [Hl|Hl].
    + apply in_explicitLinks in Hl as [Hvalue _]. discriminate.
    + apply in_companyLinks in Hl as (Htruthy & B & HB & Hl).
      apply in_companyLink in Hl as (Heq & Hcompany & Hlt).
      injection Heq as -> ->. exists A, B. auto 10.
  - intros (A & B & HA & HB & <- & <- & Htruthy & Hcompany & Hlt).
    exists A. split; [assumption|]. apply in_or_app. right.
    apply in_companyLinks. split; [assumption|]. exists B. split; [assumption|].
    rewrite companyLink_emits by assumption. now left.
Qed.

Lemma colleague_count cs A B :
  NoDup (map id cs) -> In A cs -> In B cs ->
  JS.truthy (company A) = true -> company A = company B ->
  JS.lt (id A) (id B) = true ->
  count_occ Link_eq_dec (links cs) (colleague (id A) (id B)) = 1.
Proof.
  intros Hnodup HA HB Htruthy Hcompany Hlt.
  pose proof (NoDup_ids _ Hnodup) as Hcs.
  set (e := colleague (id A) (id B)).
  assert (Hexplicit : forall src, ~ In e (explicitLinks (contactMap cs) src)).
  { intros src Hl. apply in_explicitLinks in Hl as [Hvalue _]. discriminate. }
  unfold links. rewrite (count_occ_flat_map_single Link_eq_dec _ e cs A Hcs HA).
  - rewrite count_occ_app, (proj1 (count_occ_not_In Link_eq_dec _ e) (Hexplicit A)).
    unfold companyLinks. rewrite Htruthy. simpl.
    rewrite (count_occ_flat_map_single Link_eq_dec _ e cs B Hcs HB).
    + rewrite companyLink_emits by assumption.
      now rewrite count_occ_cons_eq.
    + intros tgt Htgt Hne Hl. apply Hne.
      apply in_companyLink in Hl as (Heq & _ & _). injection Heq as Hid.
      now apply (unique_by_id cs).
  - intros src Hsrc Hne Hl. apply Hne. apply in_app_or in Hl as [Hl|Hl].
    + now apply Hexplicit in Hl.
    + apply in_companyLinks in Hl as (_ & tgt & _ & Hl).
      apply in_companyLink in Hl as (Heq & _ & _). injection Heq as Hid _.
      now apply (unique_by_id cs).
Qed.

(** C8: a link of weight 1 is a "Colleague" link from the smaller id to the
    larger; the mirror image of an inferred link is never emitted; the two
    visits the loops pay to a pair of contacts with different ids and the
    same company emit one link between them; for two stored contacts with
    different ids and the same non-empty company the link from the first to
    the second is emitted exactly when the first id is the smaller, and in a
    store with unique ids the two orientations together occur exactly
    once. *)
Theorem colleague_link_once_per_pair cs :
  (forall l, In l (links cs) -> value l = 1 ->
     l = colleague (source l) (target l) /\ JS.lt (source l) (target l) = true)
  /\ (forall a b, In (colleague a b) (links cs) -> ~ In (colleague b a) (links cs))
  /\ (forall A B, id A <> id B -> company A = company B ->
        length (companyLink A B ++ companyLink B A) = 1)
  /\ (forall A B, In A cs -> In B cs -> id A <> id B ->
        JS.truthy (company A) = true -> company A = company B ->
        (In (colleague (id A) (id B)) (links cs) <-> JS.lt (id A) (id B) = true)
        /\ (NoDup (map id cs) ->
            count_occ Link_eq_dec (links cs) (colleague (id A) (id B))
            + count_occ Link_eq_dec (links cs) (colleague (id B) (id A)) = 1)).
Proof.
  assert (Hmirror : forall a b,
    In (colleague a b) (links cs) -> ~ In (colleague b a) (links cs)).
  { intros a b Hab Hba.
    apply in_links_colleague in Hab as (_ & _ & _ & _ & _ & _ & _ & _ & Hlt).
    apply in_links_colleague in Hba as (_ & _ & _ & _ & _ & _ & _ & _ & Hlt').
    rewrite (lt_asym _ _ Hlt) in Hlt'. discriminate. }
  split; [|split; [exact Hmirror|split]].
  - intros l Hl Hvalue. unfold links in Hl. apply in_flat_map in Hl as (src & _ & Hl).
    apply in_app_or in Hl as [Hl|Hl].
    + apply in_explicitLinks in Hl as [Hvalue' _]. congruence.
    + apply in_companyLinks in Hl as (_ & tgt & _ & Hl).
      apply in_companyLink in Hl as (-> & _ & Hlt). now split.
  - intros A B Hid Hcompany. destruct (lt_total _ _ Hid) as [Hlt|Hlt].
    + now rewrite (companyLink_emits A B), (companyLink_silent B A)
        by (assumption || now apply lt_asym).
    + now rewrite (companyLink_silent A B), (companyLink_emits B A)
        by (assumption || congruence || now apply lt_asym).
  - intros A B HA HB Hid Htruthy Hcompany. split.
    + rewrite in_links_colleague. split.
      * intros (_ & _ & _ & _ & _ & _ & _ & _ & Hlt). exact Hlt.
      * intros Hlt. exists A, B. auto 10.
    + intros Hnodup. destruct (lt_total _ _ Hid) as [Hlt|Hlt].
      * rewrite (colleague_count cs A B) by assumption.
        rewrite (proj1 (count_occ_not_In Link_eq_dec _ (colleague (id B) (id A))));
          [reflexivity|].
        apply Hmirror, in_links_colleague. exists A, B. auto 10.
      * rewrite (colleague_count cs B A) by congruence.
        rewrite (proj1 (count_occ_not_In Link_eq_dec _ (colleague (id A) (id B))));
          [reflexivity|].
        apply Hmirror, in_links_colleague. exists B, A.
        repeat split; try assumption; congruence.
Qed.

(** C8, at the scenario: Li and Wang of Acme, no related people. *)
Lemma colleague_link_witness :
  links [Sample.li; Sample.wang] = [colleague "A" "B"]
  /\ count_occ Link_eq_dec (links [Sample.li; Sample.wang]) (colleague "A" "B")
     + count_occ Link_eq_dec (links [Sample.li; Sample.wang]) (colleague "B" "A") = 1.
Proof.
  split; [reflexivity|].
  apply (proj2 (proj2 (proj2 (colleague_link_once_per_pair [Sample.li; Sample.wang])))
           Sample.li Sample.wang).
  - now left.
  - right. now left.
  - discriminate.
  - reflexivity.
  - reflexivity.
  - apply NoDup_cons. split.
    + intros Hin. apply list_elem_of_singleton in Hin. discriminate.
    + apply NoDup_cons. split; [apply not_elem_of_nil | apply NoDup_nil_2].
Defined.

(** ** Deduplication of the search sources *)

Section FirstOccurrences.
Context {A : Type} `{EqDecision A}.

Lemma in_firstOccurrences (l : list A) (x : A) : x ∈ firstOccurrences l <-> x ∈ l.
Proof.
  induction l as [|a l IH]; [reflexivity|]. simpl.
  rewrite !elem_of_cons, list_elem_of_filter, IH.
  destruct (decide (x = a)); tauto.
Qed.

Lemma NoDup_firstOccurrences (l : list A) : NoDup (firstOccurrences l).
Proof.
  induction l as [|a l IH]; [apply NoDup_nil_2|]. simpl.
  apply NoDup_cons. split; [|now apply NoDup_filter].
  rewrite list_elem_of_filter. tauto.
Qed.

Lemma firstOccurrences_snoc (l : list A) (x : A) :
  firstOccurrences (l ++ [x])
  = if decide (x ∈ l) then firstOccurrences l else firstOccurrences l ++ [x].
Proof.
  induction l as [|a l IH]; [reflexivity|]. simpl. rewrite IH.
  destruct (decide (x ∈ l)) as [Hin|Hout].
  - rewrite decide_True by (now right). reflexivity.
  - destruct (decide (x = a)) as [->|Hne].
    + rewrite decide_True by left.
      rewrite filter_app, (filter_cons_False _ a) by tauto.
      now rewrite filter_nil, app_nil_r.
    + rewrite decide_False by (rewrite elem_of_cons; tauto).
      rewrite filter_app, filter_cons_True by assumption. reflexivity.
Qed.

End FirstOccurrences.

Section OrderedMapFacts.
Context {K V : Type} `{EqDecision K}.

Implicit Types (m : list (K * V)) (k : K) (v : V).

Lemma set_present m k v :
  k ∈ OrderedMap.keys m -> OrderedMap.keys (OrderedMap.set k v m) = OrderedMap.keys m.
Proof.
  induction m as [|[k' v'] m IH]; intros Hin; [now apply elem_of_nil in Hin|].
  simpl. destruct (decide (k = k')) as [->|Hne]; [reflexivity|].
  simpl. f_equal. apply IH. simpl in Hin. apply elem_of_cons in Hin. tauto.
Qed.

Lemma set_absent m k v :
  k ∉ OrderedMap.keys m -> OrderedMap.set k v m = m ++ [(k, v)].
Proof.
  induction m as [|[k' v'] m IH]; intros Hout; [reflexivity|].
  simpl in *. rewrite not_elem_of_cons in Hout. destruct Hout as [Hne Hout].
  rewrite decide_False by assumption. now rewrite IH.
Qed.

(** In a map with one entry per key, an entry found after [set k v] is the
    new one, or an old one under another key. *)
Lemma in_set m k v k0 v0 :
  NoDup (OrderedMap.keys m) ->
  In (k0, v0) (OrderedMap.set k v m) ->
  (k0 = k /\ v0 = v) \/ (k0 <> k /\ In (k0, v0) m).
Proof.
  induction m as [|[k' v'] m IH]; simpl; intros Hnodup.
  - intros [Heq|[]]. injection Heq as <- <-. now left.
  - apply NoDup_cons in Hnodup as [Hfresh Hnodup].
    destruct (decide (k = k')) as [->|Hne]; simpl.
    + intros [Heq|Hin]; [injection Heq as <- <-; now left|].
      right. split; [|now right]. intros ->. apply Hfresh.
      apply list_elem_of_In. change k' with (fst (k', v0)). now apply in_map.
    + intros [Heq|Hin]; [injection Heq as <- <-; right; split; [congruence | now left]|].
      destruct (IH Hnodup Hin) as [?|[? ?]];
        [now left | right; split; [assumption | now right]].
Qed.

Lemma ofEntries_snoc (es : list (K * V)) (e : K * V) :
  OrderedMap.ofEntries (es ++ [e])
  = OrderedMap.set (fst e) (snd e) (OrderedMap.ofEntries es).
Proof. unfold OrderedMap.ofEntries. now rewrite foldl_app. Qed.

(** The keys of [new Map(entries)] are the distinct keys of the entries, in
    the order of their first occurrence. *)
Lemma keys_ofEntries (es : list (K * V)) :
  OrderedMap.keys (OrderedMap.ofEntries es) = firstOccurrences (map fst es).
Proof.
  induction es as [|e es IH] using rev_ind; [reflexivity|].
  rewrite ofEntries_snoc, map_app.
  change (map fst [e]) with [fst e]. rewrite firstOccurrences_snoc.
  destruct (decide (fst e ∈ map fst es)) as [Hin|Hout].
  - rewrite set_present; [assumption|]. now rewrite IH, in_firstOccurrences.
  - rewrite set_absent.
    + unfold OrderedMap.keys in *. now rewrite map_app, IH.
    + now rewrite IH, in_firstOccurrences.
Qed.

End OrderedMapFacts.

Lemma uniqueSources_entries sources : forall k s,
  In (k, s) (OrderedMap.ofEntries (map (fun item => (sr_url item, item)) sources)) ->
  k = sr_url s /\ last (filter (fun x => sr_url x = k) sources) = Some s.
Proof.
  induction sources as [|x sources IH] using rev_ind; intros k s; [intros []|].
  rewrite map_app. change (map _ [x]) with [(sr_url x, x)].
  rewrite ofEntries_snoc. simpl fst. simpl snd. intros Hin.
  apply in_set in Hin as [[-> ->]|[Hne Hin]].
  - split; [reflexivity|].
    rewrite filter_app, filter_cons_True, filter_nil by reflexivity.
    apply last_snoc.
  - destruct (IH _ _ Hin) as [-> Hlast]. split; [reflexivity|].
    rewrite filter_app, filter_cons_False, filter_nil, app_nil_r by congruence.
    exact Hlast.
  - rewrite keys_ofEntries. apply NoDup_firstOccurrences.
Qed.

Lemma uniqueSources_urls sources :
  map sr_url (uniqueSources sources) = firstOccurrences (map sr_url sources).
Proof.
  unfold uniqueSources, OrderedMap.values.
  set (m := OrderedMap.ofEntries _).
  assert (Hkeys : map sr_url (map snd m) = map fst m).
  { rewrite map_map. apply map_ext_in. intros [k s] Hin.
    apply uniqueSources_entries in Hin as [-> _]. reflexivity. }
  rewrite Hkeys. subst m.
  change (map fst (OrderedMap.ofEntries ?es)) with (OrderedMap.keys (OrderedMap.ofEntries es)).
  now rewrite keys_ofEntries, map_map.
Qed.

Lemma uniqueSources_last sources s :
  In s (uniqueSources sources) ->
  last (filter (fun x => sr_url x = sr_url s) sources) = Some s.
Proof.
  unfold uniqueSources, OrderedMap.values. rewrite in_map_iff.
  intros ([k s'] & Heq & Hin). simpl in Heq. subst s'.
  now apply uniqueSources_entries in Hin as [-> Hlast].
Qed.

Section SearchProperties.
Context `{Host}.

(** C9 (amended): when the search resolves and every kept chunk has a
    well-formed URL, the returned sources hold one entry per distinct URL,
    the URLs standing in the order of their first occurrence, and the entry
    kept for a URL is the last one gathered with it. *)
Theorem search_sources_one_per_url name company response sources :
  mapM toSearchResult
       (filter (fun c => hasUri c = true) (default [] (groundingChunks response)))
  = Returns sources ->
  exists info,
    searchPersonInfo name company (Resolves response) = Returns info
    /\ NoDup (map sr_url (si_sources info))
    /\ map sr_url (si_sources info) = firstOccurrences (map sr_url sources)
    /\ forall s, In s (si_sources info) ->
         last (filter (fun x => sr_url x = sr_url s) sources) = Some s.
Proof.
  intros Hsources. eexists. split.
  - unfold searchPersonInfo. rewrite Hsources. reflexivity.
  - simpl. split; [|split].
    + rewrite uniqueSources_urls. apply NoDup_firstOccurrences.
    + apply uniqueSources_urls.
    + apply uniqueSources_last.
Qed.

End SearchProperties.

(** C9, at three chunks of which the first and the last share a URL. *)
Lemma search_sources_witness :
  let first := Sample.chunk "https://example.com/li" "First" in
  let other := Sample.chunk "https://news.example.org/a?id=1" "Other" in
  let second := Sample.chunk "https://example.com/li" "Second" in
  let response := mkResponse (Some "ok") (Some [first; other; second]) in
  exists sources info,
    mapM (toSearchResult (H := Sample.host))
         (filter (fun c => hasUri c = true) (default [] (groundingChunks response)))
    = Returns sources
    /\ searchPersonInfo (H := Sample.host) "Li" "Acme" (Resolves response) = Returns info
    /\ map sr_url (si_sources info) = firstOccurrences (map sr_url sources).
Proof.
  eexists.
  destruct (search_sources_one_per_url (H := Sample.host) "Li" "Acme"
              (mkResponse (Some "ok")
                 (Some [Sample.chunk "https://example.com/li" "First";
                        Sample.chunk "https://news.example.org/a?id=1" "Other";
                        Sample.chunk "https://example.com/li" "Second"]))
              _ eq_refl) as (info & Hinfo & _ & Hurls & _).
  exists info. split; [reflexivity|]. split; [exact Hinfo | exact Hurls].
Defined.

(** C9 as stated fails: of two chunks with the same URL the source list
    keeps the second (its title), where keeping the first occurrence would
    keep the first. *)
Lemma search_sources_keep_last :
  let first := mkSearchResult "First" "Click to visit source"
                 (Some "https://example.com/li") "example.com" in
  let second := mkSearchResult "Second" "Click to visit source"
                  (Some "https://example.com/li") "example.com" in
  searchPersonInfo (H := Sample.host) "Li" "Acme"
    (Resolves (mkResponse (Some "ok")
       (Some [Sample.chunk "https://example.com/li" "First";
              Sample.chunk "https://example.com/li" "Second"])))
  = Returns (mkSearchInfo "ok" [second])
  /\ Spec.dedupByUrlKeepFirst [first; second] = [first]
  /\ [second] <> Spec.dedupByUrlKeepFirst [first; second].
Proof. split; [reflexivity|]. split; [reflexivity | discriminate]. Qed.

(** ** Adding a relation *)

Lemma namesPerson_spec n c :
  namesPerson n c = true <-> In n (map rp_name (relatedPeople c)).
Proof.
  unfold namesPerson. rewrite existsb_exists, in_map_iff. split.
  - intros (p & Hp & Hname). apply bool_decide_eq_true in Hname. eauto.
  - intros (p & Hname & Hp). exists p. split; [assumption|].
    now apply bool_decide_eq_true.
Qed.

Lemma namesPerson_appended n label c :
  namesPerson n (withRelatedPeople c (relatedPeople c ++ [mkRelatedPerson n label])) = true.
Proof.
  apply namesPerson_spec. simpl. rewrite map_app. apply in_or_app. right. now left.
Qed.

Lemma NoDup_names_appended n label c :
  namesPerson n c = false ->
  NoDup (map rp_name (relatedPeople c)) ->
  NoDup (map rp_name (relatedPeople c ++ [mkRelatedPerson n label])).
Proof.
  intros Hnew Hnodup. rewrite map_app. apply NoDup_app. split; [assumption|]. split.
  - intros x Hx Hlast. apply list_elem_of_singleton in Hlast. subst x.
    apply list_elem_of_In, namesPerson_spec in Hx. simpl in Hx. congruence.
  - apply NoDup_singleton.
Qed.

Lemma addRelationTo_same_fields selected targetContact targetId label c :
  sameButRelatedPeople c (addRelationTo selected targetContact targetId label c).
Proof.
  unfold addRelationTo, sameButRelatedPeople.
  destruct (decide (id c = id selected)); [destruct (namesPerson _ c)|];
    [| |destruct (decide (id c = targetId)); [destruct (namesPerson _ c)|]];
    simpl; auto 12.
Qed.

Lemma addRelationTo_NoDup selected targetContact targetId label c :
  NoDup (map rp_name (relatedPeople c)) ->
  NoDup (map rp_name
           (relatedPeople (addRelationTo selected targetContact targetId label c))).
Proof.
  intros Hnodup. unfold addRelationTo.
  destruct (decide (id c = id selected)).
  - destruct (namesPerson (name targetContact) c) eqn:Hnames; [assumption|].
    now apply NoDup_names_appended.
  - destruct (decide (id c = targetId)); [|assumption].
    destruct (namesPerson (name selected) c) eqn:Hnames; [assumption|].
    now apply NoDup_names_appended.
Qed.

Lemma handleAddRelation_applied st selected targetContact :
  selectedContact st = Some selected ->
  findById (relTargetId st) (contacts st) = Some targetContact ->
  JS.truthy (relTargetId st) = true ->
  JS.truthy (JS.trim (relType st)) = true ->
  contacts (handleAddRelation st)
  = map (addRelationTo selected targetContact (relTargetId st) (relType st)) (contacts st).
Proof.
  intros Hsel Htgt Hid Hlabel. unfold handleAddRelation.
  now rewrite Hsel, Hid, Hlabel, Htgt.
Qed.

(** Whatever the dialog holds, the action maps the store contact by contact
    or leaves it alone. *)
Lemma handleAddRelation_shape st :
  contacts (handleAddRelation st) = contacts st
  \/ exists selected targetContact,
       contacts (handleAddRelation st)
       = map (addRelationTo selected targetContact (relTargetId st) (relType st))
             (contacts st).
Proof.
  unfold handleAddRelation. destruct (selectedContact st) as [selected|]; [|now left].
  destruct (negb _ || negb _); [now left|].
  destruct (findById _ _) as [targetContact|]; [|now left].
  right. now exists selected, targetContact.
Qed.

Lemma lookup_map {A B} (f : A -> B) (l : list A) (i : nat) :
  map f l !! i = f <$> (l !! i).
Proof. apply (list_lookup_fmap f l i). Qed.

Section RelationProperties.
Context `{Host}.

(** C4 (amended): adding a relation never gives a contact a second related
    person with a name it already lists: a contact whose related names are
    distinct before the action has distinct related names after it.  The
    related people of a merge are those of the oracle's reply, as they
    are. *)
Theorem relation_add_keeps_names_distinct :
  (forall st i c,
      contacts st !! i = Some c ->
      NoDup (map rp_name (relatedPeople c)) ->
      exists c', contacts (handleAddRelation st) !! i = Some c'
                 /\ NoDup (map rp_name (relatedPeople c')))
  /\ (forall first second rest response mergedData,
      JSON_parse (JS.orElse (text response) "{}") = Some mergedData ->
      exists r,
        mergeContactsSmartly (first :: second :: rest) (Resolves response) = Returns r
        /\ p_relatedPeople r = p_relatedPeople mergedData).
Proof.
  split.
  - intros st i c Hc Hnodup.
    destruct (handleAddRelation_shape st) as [->|(selected & targetContact & ->)].
    + now exists c.
    + rewrite lookup_map, Hc. simpl. eexists. split; [reflexivity|].
      now apply addRelationTo_NoDup.
  - intros first second rest response mergedData Hparse.
    rewrite merge_resolved, Hparse. eexists. split; reflexivity.
Qed.

End RelationProperties.

(** C10 (amended): the selected contact and the target exist.  When the
    label is blank (empty or white space only) the action changes nothing.
    When it is not, the store keeps its length and order; a contact with
    the selected id lists the target's name afterwards, one with the
    target's id lists the selected contact's name, the new entry carrying
    the label as typed and being appended only where the name was not
    listed yet; every contact with another id is unchanged (in a store with
    unique ids: every contact other than the two); and no field other than
    the related people changes on any contact. *)
Theorem add_relation_links_both_sides st selected targetContact :
  selectedContact st = Some selected ->
  findById (relTargetId st) (contacts st) = Some targetContact ->
  JS.truthy (relTargetId st) = true ->
  let st' := handleAddRelation st in
  (JS.truthy (JS.trim (relType st)) = false -> st' = st)
  /\ (JS.truthy (JS.trim (relType st)) = true ->
      length (contacts st') = length (contacts st)
      /\ (NoDup (map id (contacts st)) ->
          forall i c, contacts st !! i = Some c ->
            c <> selected -> c <> targetContact -> contacts st' !! i = Some c)
      /\ forall i c, contacts st !! i = Some c ->
           exists c', contacts st' !! i = Some c'
             /\ sameButRelatedPeople c c'
             /\ (id c = id selected ->
                 namesPerson (name targetContact) c' = true
                 /\ relatedPeople c'
                    = if namesPerson (name targetContact) c then relatedPeople c
                      else relatedPeople c
                           ++ [mkRelatedPerson (name targetContact) (Some (relType st))])
             /\ (id c <> id selected -> id c = id targetContact ->
                 namesPerson (name selected) c' = true
                 /\ relatedPeople c'
                    = if namesPerson (name selected) c then relatedPeople c
                      else relatedPeople c
                           ++ [mkRelatedPerson (name selected) (Some (relType st))])
             /\ (id c <> id selected -> id c <> id targetContact -> c' = c)).
Proof.
  intros Hsel Htgt Hid st'. subst st'. split.
  { intros Hblank. unfold handleAddRelation. rewrite Hsel, Hid, Hblank. reflexivity. }
  intros Hlabel.
  rewrite (handleAddRelation_applied _ _ _ Hsel Htgt Hid Hlabel).
  apply selectedContact_Some in Hsel as [Hsin _].
  apply findById_Some in Htgt as [Htin Htid].
  split; [apply length_map|]. split.
  { intros Hnodup i c Hc Hs Ht. rewrite lookup_map, Hc. simpl. f_equal.
    assert (Hcin : In c (contacts st)).
    { apply list_elem_of_In, list_elem_of_lookup. now exists i. }
    unfold addRelationTo.
    rewrite decide_False
      by (intros Hid'; apply Hs; now apply (unique_by_id (contacts st))).
    rewrite decide_False; [reflexivity|].
    rewrite <- Htid. intros Hid'. apply Ht. now apply (unique_by_id (contacts st)). }
  intros i c Hc. rewrite lookup_map, Hc. simpl. eexists. split; [reflexivity|].
  split; [apply addRelationTo_same_fields|].
  unfold addRelationTo. rewrite <- Htid.
  destruct (decide (id c = id selected)) as [Hs|Hs].
  - split; [|split; intros; contradiction]. intros _.
    destruct (namesPerson (name targetContact) c) eqn:Hnames.
    + now split.
    + split; [apply namesPerson_appended | reflexivity].
  - split; [intros; contradiction|].
    destruct (decide (id c = id targetContact)) as [Ht|Ht].
    + split; [|intros; contradiction]. intros _ _.
      destruct (namesPerson (name selected) c) eqn:Hnames.
      * now split.
      * split; [apply namesPerson_appended | reflexivity].
    + split; [intros; contradiction | reflexivity].
Qed.

(** C4, at the first of the initial contacts, related to the third. *)
Lemma relation_add_witness :
  let st := Sample.relating Sample.INITIAL_CONTACTS "1" "3" "Investor" in
  contacts st !! 0 = Some Sample.liMing
  /\ NoDup (map rp_name (relatedPeople Sample.liMing))
  /\ exists c', contacts (handleAddRelation st) !! 0 = Some c'
                /\ NoDup (map rp_name (relatedPeople c')).
Proof.
  assert (Hnodup : NoDup (map rp_name (relatedPeople Sample.liMing))).
  { apply NoDup_singleton. }
  split; [reflexivity|]. split; [exact Hnodup|].
  apply (proj1 (relation_add_keeps_names_distinct (H := Sample.host))
           (Sample.relating Sample.INITIAL_CONTACTS "1" "3" "Investor")
           0 Sample.liMing eq_refl Hnodup).
Defined.

(** C4 as stated fails: the merge hands on the related people of the reply,
    here the same name twice, and not the deduplicated union of the
    profiles' lists. *)
Lemma merge_related_people_may_repeat :
  exists r,
    mergeContactsSmartly (H := Sample.host) [Sample.liMing; Sample.wangQiang]
      (Sample.response Sample.textTwoZhang) = Returns r
    /\ p_relatedPeople r = Some [Sample.zhangAdvisor; Sample.zhangMentor]
    /\ rp_name Sample.zhangAdvisor = rp_name Sample.zhangMentor
    /\ Spec.relatedPeopleUnion [Sample.liMing; Sample.wangQiang]
       = [mkRelatedPerson "王强" (Some "Colleague"); mkRelatedPerson "李明" (Some "Colleague")].
Proof. eexists. repeat split; reflexivity. Qed.

(** C10, at the initial contacts: the first is related to the third as
    "Investor". *)
Lemma add_relation_witness :
  let st := Sample.relating Sample.INITIAL_CONTACTS "1" "3" "Investor" in
  selectedContact st = Some Sample.liMing
  /\ findById (relTargetId st) (contacts st) = Some Sample.zhangWei
  /\ JS.truthy (relTargetId st) = true
  /\ JS.truthy (JS.trim (relType st)) = true
  /\ length (contacts (handleAddRelation st)) = length (contacts st)
  /\ map relatedPeople (contacts (handleAddRelation st))
     = [ [mkRelatedPerson "王强" (Some "Colleague");
          mkRelatedPerson "张伟" (Some "Investor")];
         [mkRelatedPerson "李明" (Some "Colleague")];
         [mkRelatedPerson "李明" (Some "Investor")] ].
Proof.
  split; [reflexivity|]. split; [reflexivity|]. split; [reflexivity|].
  split; [reflexivity|]. split; [|reflexivity].
  apply (proj2 (add_relation_links_both_sides
                  (Sample.relating Sample.INITIAL_CONTACTS "1" "3" "Investor")
                  Sample.liMing Sample.zhangWei eq_refl eq_refl eq_refl) eq_refl).
Defined.

(** C10 as stated fails: a label that is not empty but blank, one space or
    one ideographic space (U+3000), adds no entry on either side. *)
Lemma add_relation_skips_a_blank_label :
  let st := Sample.relating Sample.INITIAL_CONTACTS "1" "3" " " in
  let st3000 :=
    Sample.relating Sample.INITIAL_CONTACTS "1" "3" (Utf8.encode 0x3000) in
  selectedContact st = Some Sample.liMing
  /\ findById (relTargetId st) (contacts st) = Some Sample.zhangWei
  /\ JS.truthy (relType st) = true
  /\ handleAddRelation st = st
  /\ map relatedPeople (contacts (handleAddRelation st))
     = [ [mkRelatedPerson "王强" (Some "Colleague")];
         [mkRelatedPerson "李明" (Some "Colleague")];
         [] ]
  /\ JS.truthy (relType st3000) = true
  /\ handleAddRelation st3000 = st3000.
Proof. repeat split; reflexivity. Qed.

(** * Further properties *)

(** ** Names resolved by the graph *)

Lemma contactMap_snoc cs c :
  contactMap (cs ++ [c]) = <[name c := id c]> (contactMap cs).
Proof. unfold contactMap. now rewrite foldl_app. Qed.

(** The map from names to ids answers with the id of the last contact that
    bears the name. *)
Lemma contactMap_lookup cs n :
  contactMap cs !! n = id <$> last (filter (fun c => name c = n) cs).
Proof.
  induction cs as [|c cs IH] using rev_ind; [reflexivity|].
  rewrite contactMap_snoc, filter_app, lookup_insert.
  destruct (decide (name c = n)) as [Hn|Hn].
  - rewrite filter_cons_True, filter_nil, last_snoc by assumption. reflexivity.
  - rewrite filter_cons_False, filter_nil, app_nil_r by assumption. exact IH.
Qed.

Lemma last_In {A} (l : list A) (x : A) : last l = Some x -> In x l.
Proof.
  intros Hlast. apply last_Some in Hlast as [l' ->].
  apply in_or_app. right. now left.
Qed.

Lemma last_filter_In {A} (P : A -> Prop) `{forall x, Decision (P x)} (l : list A) (x : A) :
  last (filter P l) = Some x -> In x l /\ P x.
Proof.
  intros Hlast. apply last_In, list_elem_of_In, list_elem_of_filter in Hlast.
  rewrite <- list_elem_of_In. tauto.
Qed.

Lemma in_explicitLinks_target cs src l :
  In l (explicitLinks (contactMap cs) src) ->
  source l = id src /\ exists tgt, In tgt cs /\ target l = id tgt.
Proof.
  unfold explicitLinks. rewrite in_flat_map. intros (rel & _ & Hl).
  rewrite contactMap_lookup in Hl.
  destruct (last _) as [tgt|] eqn:Hlast; [|destruct Hl]. simpl in Hl.
  destruct (JS.truthy (id tgt)); [|destruct Hl].
  destruct Hl as [<-|[]]. apply last_filter_In in Hlast as [Htgt _].
  split; [reflexivity|]. now exists tgt.
Qed.

(** X1: an explicit link starts at its contact and ends at the last contact
    of the list that bears the related name, when that contact has a
    non-empty id; a related name that no contact bears gives no link. *)
Theorem explicit_links_resolve_names cs src l :
  In l (explicitLinks (contactMap cs) src) <->
  exists rel tgt,
    In rel (relatedPeople src)
    /\ last (filter (fun c => name c = rp_name rel) cs) = Some tgt
    /\ JS.truthy (id tgt) = true
    /\ l = mkLink (id src) (id tgt) 2 (rp_relationship rel).
Proof.
  unfold explicitLinks. rewrite in_flat_map. split.
  - intros (rel & Hrel & Hl). rewrite contactMap_lookup in Hl.
    destruct (last _) as [tgt|] eqn:Hlast; [|destruct Hl]. simpl in Hl.
    destruct (JS.truthy (id tgt)) eqn:Hid; [|destruct Hl].
    destruct Hl as [<-|[]]. now exists rel, tgt.
  - intros (rel & tgt & Hrel & Hlast & Hid & ->). exists rel. split; [assumption|].
    rewrite contactMap_lookup, Hlast. simpl. rewrite Hid. now left.
Qed.

Lemma link_ends_in_store cs l :
  In l (links cs) -> In (source l) (map id cs) /\ In (target l) (map id cs).
Proof.
  unfold links. rewrite in_flat_map. intros (src & Hsrc & Hl).
  apply in_app_or in Hl as [Hl|Hl].
  - apply in_explicitLinks_target in Hl as (-> & tgt & Htgt & ->).
    split; now apply in_map.
  - apply in_companyLinks in Hl as (_ & tgt & Htgt & Hl).
    apply in_companyLink in Hl as (-> & _ & _). simpl. split; now apply in_map.
Qed.

Lemma filteredContacts_sublist cs q : sublist (filteredContacts cs q) cs.
Proof.
  unfold filteredContacts. destruct (negb _); [reflexivity | apply sublist_filter].
Qed.

(** X2: both ends of every link are ids of contacts of the list the links
    were derived from, so the simulation finds a node for each end; the
    graph is given the contacts the search shows, so no link reaches a
    contact that the search hides. *)
Theorem link_ends_are_nodes cs q l :
  In l (links (filteredContacts cs q)) ->
  In (source l) (map id (filteredContacts cs q))
  /\ In (target l) (map id (filteredContacts cs q))
  /\ In (source l) (map id cs) /\ In (target l) (map id cs).
Proof.
  intros Hl. destruct (link_ends_in_store _ _ Hl) as [Hs Ht].
  pose proof (filteredContacts_sublist cs q) as Hsub.
  assert (Hids : forall i, In i (map id (filteredContacts cs q)) -> In i (map id cs)).
  { intros i Hi. apply in_map_iff in Hi as (c & <- & Hc). apply in_map.
    apply list_elem_of_In. eapply elem_of_sublist; [|exact Hsub].
    now apply list_elem_of_In. }
  auto.
Qed.

(** X2, at the initial contacts. *)
Lemma link_ends_witness :
  In (mkLink "2" "1" 2 (Some "Colleague")) (links Sample.INITIAL_CONTACTS)
  /\ In "2" (map id Sample.INITIAL_CONTACTS)
  /\ In "1" (map id Sample.INITIAL_CONTACTS).
Proof.
  assert (Hl : In (mkLink "2" "1" 2 (Some "Colleague")) (links Sample.INITIAL_CONTACTS)).
  { right. right. now left. }
  split; [exact Hl|].
  exact (proj2 (proj2 (link_ends_are_nodes Sample.INITIAL_CONTACTS EmptyString _ Hl))).
Defined.

(** ** The fill colour of a node *)

Lemma take_length n s : String.length (Str.take n s) = Nat.min n (String.length s).
Proof.
  revert s. induction n as [|n IH]; intros [|a s]; simpl; try reflexivity.
  now rewrite IH.
Qed.

Lemma toUpperCase_app a b :
  Str.toUpperCase (a ++ b)%string = (Str.toUpperCase a ++ Str.toUpperCase b)%string.
Proof. induction a as [|ch a IH]; simpl; [reflexivity | now rewrite IH]. Qed.

Lemma toUpperCase_length s : String.length (Str.toUpperCase s) = String.length s.
Proof. induction s as [|ch s IH]; simpl; [reflexivity | now rewrite IH]. Qed.

Lemma hexValueFrom_app acc s t :
  hexValueFrom acc (s ++ t)%string = hexValueFrom acc s ≫= fun v => hexValueFrom v t.
Proof.
  revert acc. induction s as [|a s IH]; intros acc; simpl; [reflexivity|].
  destruct (hexDigitValue a); [apply IH | reflexivity].
Qed.

(** An upper-cased digit of [toString(16)] denotes the digit's value. *)
Lemma hexDigit_value d :
  (0 <= d < 16)%Z -> hexDigitValue (Str.upperAscii (Int32.hexDigit d)) = Some d.
Proof.
  intros Hd. rewrite <- (Z2Nat.id d) at 2 by lia.
  unfold Int32.hexDigit. assert (Hn : Z.to_nat d < 16) by lia.
  revert Hn. generalize (Z.to_nat d). intros n Hn.
  do 16 (destruct n as [|n]; [reflexivity|]). lia.
Qed.

Lemma hexDigits_value fuel : forall n,
  (0 <= n < 16 ^ Z.of_nat fuel)%Z ->
  hexValue (Str.toUpperCase (Int32.hexDigits fuel n)) = Some n.
Proof.
  unfold hexValue. induction fuel as [|fuel IH]; intros n Hn.
  - change (16 ^ Z.of_nat 0)%Z with 1%Z in Hn. simpl. f_equal. lia.
  - simpl Int32.hexDigits. destruct (Z.ltb_spec n 16) as [Hsmall|Hbig].
    + simpl. rewrite hexDigit_value by lia. reflexivity.
    + rewrite toUpperCase_app, hexValueFrom_app, IH.
      * simpl. rewrite hexDigit_value by (apply Z.mod_pos_bound; lia).
        f_equal. pose proof (Z.div_mod n 16). lia.
      * rewrite Nat2Z.inj_succ, Z.pow_succ_r in Hn by lia.
        split; [apply Z.div_pos; lia|]. apply Z.div_lt_upper_bound; lia.
Qed.

Lemma hexDigits_length_le fuel : forall n k,
  (0 <= n < 16 ^ Z.of_nat k)%Z -> 1 <= k ->
  String.length (Int32.hexDigits fuel n) <= k.
Proof.
  induction fuel as [|fuel IH]; intros n k Hn Hk; [simpl; lia|].
  simpl. destruct (Z.ltb_spec n 16) as [Hsmall|Hbig]; [simpl; lia|].
  rewrite string_length_app. simpl.
  destruct k as [|[|k]]; [lia | change (16 ^ Z.of_nat 1)%Z with 16%Z in Hn; lia |].
  assert (String.length (Int32.hexDigits fuel (n / 16)) <= S k); [|lia].
  apply IH; [|lia].
  rewrite Nat2Z.inj_succ, Z.pow_succ_r in Hn by lia.
  split; [apply Z.div_pos; lia|]. apply Z.div_lt_upper_bound; lia.
Qed.

Lemma hexDigits_length_pos fuel n : 1 <= String.length (Int32.hexDigits (S fuel) n).
Proof.
  simpl. destruct (n <? 16)%Z; [simpl; lia|]. rewrite string_length_app. simpl. lia.
Qed.

(** The fuel of [toString16] is enough for all the digits. *)
Lemma toString16_fuel n :
  (0 <= n)%Z -> (n < 16 ^ Z.of_nat (S (Z.to_nat (Z.log2 n))))%Z.
Proof.
  intros Hn. rewrite Nat2Z.inj_succ, Z2Nat.id by apply Z.log2_nonneg.
  destruct (Z.eq_dec n 0%Z) as [->|Hpos]; [reflexivity|].
  pose proof (Z.log2_spec n ltac:(lia)) as [_ Hlt].
  eapply Z.lt_le_trans; [exact Hlt|].
  apply Z.pow_le_mono_l. pose proof (Z.log2_nonneg n). lia.
Qed.

Lemma wrap_mod h : (Int32.wrap h mod 2 ^ 24 = h mod 2 ^ 24)%Z.
Proof.
  unfold Int32.wrap.
  change (2 ^ 31)%Z with 2147483648%Z. change (2 ^ 32)%Z with 4294967296%Z.
  change (2 ^ 24)%Z with 16777216%Z.
  rewrite (Z.mod_eq (h + 2147483648) 4294967296) by lia.
  replace (h + 2147483648 - 4294967296 * ((h + 2147483648) / 4294967296) - 2147483648)%Z
    with (h + (- 256 * ((h + 2147483648) / 4294967296)) * 16777216)%Z by lia.
  apply Z_mod_plus_full.
Qed.

Lemma and_mask h : Int32.and h 16777215 = (h mod 2 ^ 24)%Z.
Proof.
  unfold Int32.and. change (Int32.wrap 16777215) with (Z.ones 24).
  rewrite Z.land_ones by lia. apply wrap_mod.
Qed.

(** X3: the fill of a node is ["#"] followed by six upper-case hexadecimal
    digits, and these denote the hash of the name modulo [2^24]. *)
Theorem node_fill_is_a_colour codes :
  exists six,
    fillOfCodes codes = String "#" six
    /\ String.length six = 6
    /\ hexValue six = Some (nameHash codes mod 2 ^ 24)%Z.
Proof.
  unfold fillOfCodes. rewrite and_mask.
  set (v := (nameHash codes mod 2 ^ 24)%Z).
  assert (Hv : (0 <= v < 16 ^ Z.of_nat 6)%Z).
  { change (16 ^ Z.of_nat 6)%Z with (2 ^ 24)%Z. apply Z.mod_pos_bound. reflexivity. }
  unfold Int32.toString16. rewrite (proj2 (Z.ltb_ge v 0)) by lia.
  set (digits := Int32.hexDigits _ v).
  assert (Hvalue : hexValue (Str.toUpperCase digits) = Some v).
  { apply hexDigits_value. split; [lia | apply toString16_fuel; lia]. }
  assert (Hlen : 1 <= String.length (Str.toUpperCase digits) <= 6).
  { rewrite toUpperCase_length. split; [apply hexDigits_length_pos|].
    apply hexDigits_length_le; [exact Hv | lia]. }
  revert Hvalue Hlen. generalize (Str.toUpperCase digits). intros c Hvalue Hlen.
  eexists. split; [reflexivity|]. split.
  - rewrite string_length_app, take_length. simpl. lia.
  - unfold hexValue in *. rewrite hexValueFrom_app.
    assert (Hpad : forall k, k <= 5 -> hexValueFrom 0 (Str.take k "00000") = Some 0%Z).
    { intros k Hk. do 6 (destruct k as [|k]; [reflexivity|]). lia. }
    rewrite Hpad by lia. exact Hvalue.
Qed.

Lemma wrap_bound z : (- 2 ^ 31 <= Int32.wrap z < 2 ^ 31)%Z.
Proof.
  unfold Int32.wrap. pose proof (Z.mod_pos_bound (z + 2 ^ 31) (2 ^ 32) eq_refl). lia.
Qed.

Lemma hashStep_bound hash code :
  (0 <= code < 65536)%Z -> (Z.abs (hashStep hash code) <= Z.abs hash + 2 ^ 32)%Z.
Proof.
  intros Hcode. unfold hashStep, Int32.shl.
  pose proof (wrap_bound (Z.shiftl (Int32.wrap hash) 5)) as Hshl.
  change (2 ^ 31)%Z with 2147483648%Z in Hshl. change (2 ^ 32)%Z with 4294967296%Z.
  lia.
Qed.

Lemma foldl_hashStep_bound codes : forall hash,
  Forall (fun code => 0 <= code < 65536)%Z codes ->
  (Z.abs (foldl hashStep hash codes) <= Z.abs hash + 2 ^ 32 * Z.of_nat (length codes))%Z.
Proof.
  induction codes as [|code codes IH]; intros hash Hcodes; [simpl; lia|].
  apply Forall_cons in Hcodes as [Hcode Hcodes]. simpl foldl.
  specialize (IH (hashStep hash code) Hcodes).
  pose proof (hashStep_bound hash code Hcode).
  rewrite length_cons, Nat2Z.inj_succ. lia.
Qed.

(** X4: for a name of fewer than [2^21] code units, the hash stays below
    [2^53] in absolute value after every turn of the loop, the range in
    which the arithmetic of JavaScript numbers is exact on integers. *)
Theorem name_hash_stays_exact codes k :
  Forall (fun code => 0 <= code < 65536)%Z codes ->
  (Z.of_nat (length codes) < 2 ^ 21)%Z ->
  (Z.abs (nameHash (take k codes)) < 2 ^ 53)%Z.
Proof.
  intros Hcodes Hlen. unfold nameHash.
  assert (Hprefix : Forall (fun code => 0 <= code < 65536)%Z (take k codes))
    by now apply Forall_take.
  pose proof (foldl_hashStep_bound (take k codes) 0%Z Hprefix) as Hbound.
  assert (length (take k codes) <= length codes) by (rewrite length_take; lia).
  change (2 ^ 53)%Z with 9007199254740992%Z.
  change (2 ^ 21)%Z with 2097152%Z in Hlen.
  change (2 ^ 32)%Z with 4294967296%Z in Hbound. lia.
Qed.

(** X4, at the code units of "Li". *)
Lemma name_hash_witness :
  Forall (fun code => 0 <= code < 65536)%Z [76; 105]%Z
  /\ (Z.of_nat (length [76; 105]%Z) < 2 ^ 21)%Z
  /\ (Z.abs (nameHash (take 1 [76; 105])) < 2 ^ 53)%Z.
Proof.
  assert (Hcodes : Forall (fun code => 0 <= code < 65536)%Z [76; 105]%Z).
  { repeat constructor; lia. }
  assert (Hlen : (Z.of_nat (length [76; 105]%Z) < 2 ^ 21)%Z) by reflexivity.
  split; [exact Hcodes|]. split; [exact Hlen|].
  exact (name_hash_stays_exact [76; 105]%Z 1 Hcodes Hlen).
Defined.

(** ** The texts of a node *)

Lemma shorten_long most kept (s : list Z) :
  most < length s -> shorten most kept s = take kept s ++ [46; 46]%Z.
Proof. intros Hlong. unfold shorten. now rewrite (proj2 (Nat.ltb_lt _ _) Hlong). Qed.

Lemma shorten_short most kept (s : list Z) :
  length s <= most -> shorten most kept s = s.
Proof. intros Hshort. unfold shorten. now rewrite (proj2 (Nat.ltb_ge _ _) Hshort). Qed.

(** A string that is not empty has a code unit. *)
Lemma units_nonempty s : s <> EmptyString -> Utf8.units s <> [].
Proof.
  destruct s as [|a s1]; [congruence|]. intros _. simpl.
  destruct (Utf8.code a <? 128)%Z; [discriminate|].
  destruct s1 as [|b s2]; [discriminate|].
  destruct (Utf8.code a <? 224)%Z; [discriminate|].
  destruct s2 as [|c s3]; [discriminate|].
  destruct (Utf8.code a <? 240)%Z; [discriminate|].
  destruct s3 as [|d s4]; [discriminate|].
  unfold Utf8.unitsOf. destruct (_ <? 65536)%Z; discriminate.
Qed.

(** X5: the text inside a node is this cut of the code units of the name.  It
    has at most seven code units and is never longer than the name; a name
    of at most six code units is shown as it is, a longer one by its first
    five code units and two dots.  This holds of every sequence of code
    units. *)
Theorem node_text_is_short (units : list Z) :
  length (shorten 6 5 units) <= 7
  /\ length (shorten 6 5 units) <= length units
  /\ (length units <= 6 -> shorten 6 5 units = units)
  /\ (6 < length units ->
      length (shorten 6 5 units) = 7
      /\ shorten 6 5 units = take 5 units ++ [46; 46]%Z)
  /\ forall d, units = Utf8.units (name d) -> nodeText d = shorten 6 5 units.
Proof.
  destruct (Nat.lt_ge_cases 6 (length units)) as [Hlong|Hshort].
  - rewrite shorten_long by assumption.
    assert (Hlen : length (take 5 units ++ [46; 46]%Z) = 7).
    { rewrite length_app, length_take. change (length [46; 46]%Z) with 2. lia. }
    rewrite Hlen. split; [lia|]. split; [lia|]. split; [lia|].
    split; [now split|]. intros d ->. unfold nodeText. now rewrite shorten_long.
  - rewrite shorten_short by assumption.
    split; [lia|]. split; [lia|]. split; [reflexivity|].
    split; [lia|]. intros d ->. unfold nodeText. now rewrite shorten_short.
Qed.

(** X5, at names of two, six and seven Chinese characters, at a name of
    seven letters and at one of three characters outside the basic plane
    (two code units each) and a letter: only the names of seven code units
    are cut, the last one inside a surrogate pair. *)
Lemma node_text_witness :
  nodeText Sample.liMing = [0x674E; 0x660E]%Z
  /\ nodeText (Sample.person "8" "欧阳娜娜小姐" "Acme" [] [])
     = Utf8.units "欧阳娜娜小姐"
  /\ nodeText (Sample.person "9" "欧阳娜娜小姐们" "Acme" [] [])
     = Utf8.units "欧阳娜娜小.."
  /\ nodeText (Sample.person "9" "𠮷𠮷𠮷a" "Acme" [] [])
     = [0xD842; 0xDFB7; 0xD842; 0xDFB7; 0xD842; 46; 46]%Z
  /\ 6 < length (Utf8.units "Rebecca")
  /\ nodeText (Sample.person "9" "Rebecca" "Acme" [] []) = Utf8.units "Rebec..".
Proof.
  split; [reflexivity|]. split; [reflexivity|]. split; [reflexivity|].
  split; [reflexivity|].
  assert (Hlong : 6 < length (Utf8.units "Rebecca")) by (simpl; lia).
  split; [exact Hlong|].
  destruct (node_text_is_short (Utf8.units "Rebecca")) as (_ & _ & _ & Hcut & Hnode).
  rewrite (Hnode (Sample.person "9" "Rebecca" "Acme" [] []) eq_refl).
  rewrite (proj2 (Hcut Hlong)). reflexivity.
Defined.

(** X6: the label below a node has at most nine code units; it is empty
    exactly when the contact has neither title nor company, and shows the
    title whenever there is one, whole when it has at most eight code
    units.  The cut bounds every sequence of code units. *)
Theorem node_info_is_short d (units : list Z) :
  length (nodeInfo d) <= 9
  /\ (nodeInfo d = [] <-> title d = EmptyString /\ company d = EmptyString)
  /\ (title d <> EmptyString -> length (Utf8.units (title d)) <= 8 ->
      nodeInfo d = Utf8.units (title d))
  /\ (title d <> EmptyString -> 8 < length (Utf8.units (title d)) ->
      nodeInfo d = take 7 (Utf8.units (title d)) ++ [46; 46]%Z)
  /\ length (shorten 8 7 units) <= 9
  /\ length (shorten 8 7 units) <= length units.
Proof.
  assert (Hbound : forall s : list Z,
    length (shorten 8 7 s) <= 9 /\ length (shorten 8 7 s) <= length s
    /\ (s <> [] -> shorten 8 7 s <> [])).
  { intros s. destruct (Nat.lt_ge_cases 8 (length s)) as [Hlong|Hshort].
    - rewrite shorten_long by assumption. rewrite length_app, length_take.
      change (length [46; 46]%Z) with 2.
      split; [lia|]. split; [lia|]. intros _. now destruct (take 7 s).
    - rewrite shorten_short by assumption. split; [lia|]. now split. }
  split; [|split; [|split; [|split; [|split; apply Hbound]]]].
  - unfold nodeInfo. destruct (negb _); [simpl; lia | apply Hbound].
  - unfold nodeInfo. destruct (title d) as [|a t] eqn:Htitle; simpl.
    + destruct (company d) as [|b c] eqn:Hcompany; simpl; [tauto|].
      split; [|intros [_ Heq]; discriminate]. intros Hempty. exfalso.
      apply (proj2 (proj2 (Hbound (Utf8.units (String b c))))) in Hempty; [assumption|].
      now apply units_nonempty.
    + split; [|intros [Heq _]; discriminate]. intros Hempty. exfalso.
      apply (proj2 (proj2 (Hbound (Utf8.units (String a t))))) in Hempty; [assumption|].
      now apply units_nonempty.
  - intros Htitle Hshort. unfold nodeInfo.
    destruct (title d) as [|a t]; [congruence|]. simpl JS.truthy. simpl negb.
    cbv iota. now rewrite shorten_short.
  - intros Htitle Hlong. unfold nodeInfo.
    destruct (title d) as [|a t]; [congruence|]. simpl JS.truthy. simpl negb.
    cbv iota. now rewrite shorten_long.
Qed.

(** X6, at the initial contacts, whose titles of six, four and three Chinese
    characters are shown whole, and at a title of nine. *)
Lemma node_info_witness :
  map nodeInfo Sample.INITIAL_CONTACTS
  = [Utf8.units "高级产品经理"; Utf8.units "技术总监"; Utf8.units "投资人"]
  /\ nodeInfo (mkContact "9" "Li" "首席人工智能科学家" "Acme" None None None [] "" "" [] None)
     = Utf8.units "首席人工智能科.."
  /\ length (nodeInfo Sample.liMing) <= 9.
Proof.
  split; [reflexivity|]. split; [reflexivity|].
  exact (proj1 (node_info_is_short Sample.liMing [])).
Defined.

(** ** White space *)

Lemma isWhiteSpace_In char :
  JS.isWhiteSpace char = true <-> In char (map Utf8.encode JS.whiteSpace).
Proof.
  unfold JS.isWhiteSpace. rewrite existsb_exists. split.
  - intros (pattern & Hin & Heq). apply String.eqb_eq in Heq. now subst.
  - intros Hin. exists char. split; [assumption | apply String.eqb_refl].
Qed.

(** Each entry of the table is the form of one code unit, the code point. *)
Lemma whiteSpace_units :
  Forall (fun cp => Utf8.units (Utf8.encode cp) = [cp]) JS.whiteSpace.
Proof. repeat constructor. Qed.

(** Splits [H : isWhiteSpace char = true] into the cases of the table and
    closes those in which [char] cannot be the entry. *)
Ltac white_space_cases H :=
  apply isWhiteSpace_In in H;
  let table := eval vm_compute in (map Utf8.encode JS.whiteSpace) in
  change (map Utf8.encode JS.whiteSpace) with table in H;
  simpl in H;
  repeat (destruct H as [H|H]; [try discriminate H|]);
  try contradiction.

(** A line feed is a white-space character by itself and part of no
    other. *)
Lemma line_feed_second a :
  JS.isWhiteSpace (String a (String "010" EmptyString)) = false.
Proof.
  destruct (JS.isWhiteSpace _) eqn:Hspace; [|reflexivity]. white_space_cases Hspace.
Qed.

Lemma line_feed_third a b :
  JS.isWhiteSpace (String a (String b (String "010" EmptyString))) = false.
Proof.
  destruct (JS.isWhiteSpace _) eqn:Hspace; [|reflexivity]. white_space_cases Hspace.
Qed.

Lemma strip_length backwards : forall n s,
  String.length s <= n -> String.length (JS.strip backwards s) <= String.length s.
Proof.
  induction n as [|n IH]; intros s Hlen.
  - destruct s; [simpl; lia | simpl in Hlen; lia].
  - destruct s as [|a [|b [|c s3]]]; simpl in *.
    + lia.
    + destruct (JS.isWhiteSpace _); simpl; lia.
    + destruct (JS.isWhiteSpace (String a EmptyString)).
      * specialize (IH (String b EmptyString)). simpl in IH.
        destruct (JS.isWhiteSpace (String b EmptyString)); simpl in *; lia.
      * destruct (JS.isWhiteSpace (JS.charOf _ _)); simpl; lia.
    + assert (H1 := IH (String b (String c s3))).
      assert (H2 := IH (String c s3)). assert (H3 := IH s3). simpl in H1, H2, H3.
      destruct (JS.isWhiteSpace (String a EmptyString)); [lia|].
      destruct (JS.isWhiteSpace (JS.charOf _ (String a (String b EmptyString)))); [lia|].
      destruct (JS.isWhiteSpace (JS.charOf _ (String a (String b (String c EmptyString)))));
        simpl; lia.
Qed.

Lemma strip_shrinks backwards s :
  String.length (JS.strip backwards s) <= String.length s.
Proof. now apply (strip_length backwards (String.length s)). Qed.

Lemma strip_unfold backwards s :
  JS.strip backwards s
  = match s with
    | EmptyString => EmptyString
    | String a s1 =>
        if JS.isWhiteSpace (String a EmptyString) then JS.strip backwards s1
        else
          match s1 with
          | EmptyString => s
          | String b s2 =>
              if JS.isWhiteSpace (JS.charOf backwards (String a (String b EmptyString)))
              then JS.strip backwards s2
              else
                match s2 with
                | EmptyString => s
                | String c s3 =>
                    if JS.isWhiteSpace
                         (JS.charOf backwards
                            (String a (String b (String c EmptyString))))
                    then JS.strip backwards s3
                    else s
                end
          end
    end.
Proof. now destruct s. Qed.

(** What is left of a string that does not begin with white space is the
    string. *)
Lemma strip_same_length backwards s :
  String.length (JS.strip backwards s) = String.length s -> JS.strip backwards s = s.
Proof.
  rewrite (strip_unfold backwards s).
  destruct s as [|a s1]; [reflexivity|].
  destruct (JS.isWhiteSpace (String a EmptyString)).
  { intros Hlen. pose proof (strip_shrinks backwards s1). simpl in Hlen. lia. }
  destruct s1 as [|b s2]; [reflexivity|].
  destruct (JS.isWhiteSpace (JS.charOf _ (String a (String b EmptyString)))).
  { intros Hlen. pose proof (strip_shrinks backwards s2). simpl in Hlen. lia. }
  destruct s2 as [|c s3]; [reflexivity|].
  destruct (JS.isWhiteSpace (JS.charOf _ _)); [|reflexivity].
  intros Hlen. pose proof (strip_shrinks backwards s3). simpl in Hlen. lia.
Qed.

(** ** Searching the contacts *)

Lemma lowerAscii_inv a p : Str.upperAscii p = p -> JS.lowerAscii a = p -> a = p.
Proof.
  intros Hupper Hlower. subst p. revert Hupper.
  destruct a as [[] [] [] [] [] [] [] []]; vm_compute; congruence.
Qed.

Lemma toLowerCase_inv s : forall p,
  Str.toUpperCase p = p -> JS.toLowerCase s = p -> s = p.
Proof.
  induction s as [|a s IH]; intros [|b p] Hupper Hlower; try discriminate; [reflexivity|].
  simpl in Hupper, Hlower. injection Hupper as Hb Hp. injection Hlower as Ha Hs.
  f_equal; [now apply lowerAscii_inv | now apply IH].
Qed.

(** The bytes of the white-space characters are no letters. *)
Lemma whiteSpace_caseless char :
  In char (map Utf8.encode JS.whiteSpace) ->
  Str.toUpperCase char = char /\ JS.toLowerCase char = char.
Proof.
  intros Hin.
  assert (Hall : forallb
            (fun p => String.eqb (Str.toUpperCase p) p && String.eqb (JS.toLowerCase p) p)
            (map Utf8.encode JS.whiteSpace) = true) by reflexivity.
  rewrite forallb_forall in Hall. apply Hall in Hin.
  apply andb_true_iff in Hin as [Hupper Hlower].
  now apply String.eqb_eq in Hupper, Hlower.
Qed.

Lemma isWhiteSpace_toLowerCase char :
  JS.isWhiteSpace (JS.toLowerCase char) = JS.isWhiteSpace char.
Proof.
  apply Bool.eq_iff_eq_true. rewrite !isWhiteSpace_In. split; intros Hin.
  - destruct (whiteSpace_caseless _ Hin) as [Hupper _].
    now rewrite (toLowerCase_inv char _ Hupper eq_refl) at 1.
  - destruct (whiteSpace_caseless _ Hin) as [_ Hlower]. now rewrite Hlower.
Qed.

Lemma toLowerCase_truthy s : JS.truthy (JS.toLowerCase s) = JS.truthy s.
Proof. now destruct s. Qed.

Lemma strip_toLowerCase_bounded backwards : forall n s,
  String.length s <= n ->
  JS.strip backwards (JS.toLowerCase s) = JS.toLowerCase (JS.strip backwards s).
Proof.
  assert (H1 : forall a,
    JS.isWhiteSpace (String (JS.lowerAscii a) EmptyString)
    = JS.isWhiteSpace (String a EmptyString)).
  { intros a. exact (isWhiteSpace_toLowerCase (String a EmptyString)). }
  assert (H2 : forall a b,
    JS.isWhiteSpace
      (JS.charOf backwards (String (JS.lowerAscii a) (String (JS.lowerAscii b) EmptyString)))
    = JS.isWhiteSpace (JS.charOf backwards (String a (String b EmptyString)))).
  { intros a b. destruct backwards.
    - exact (isWhiteSpace_toLowerCase (String b (String a EmptyString))).
    - exact (isWhiteSpace_toLowerCase (String a (String b EmptyString))). }
  assert (H3 : forall a b c,
    JS.isWhiteSpace
      (JS.charOf backwards
         (String (JS.lowerAscii a)
            (String (JS.lowerAscii b) (String (JS.lowerAscii c) EmptyString))))
    = JS.isWhiteSpace
        (JS.charOf backwards (String a (String b (String c EmptyString))))).
  { intros a b c. destruct backwards.
    - exact (isWhiteSpace_toLowerCase (String c (String b (String a EmptyString)))).
    - exact (isWhiteSpace_toLowerCase (String a (String b (String c EmptyString)))). }
  induction n as [|n IH]; intros s Hlen.
  - destruct s; [reflexivity | simpl in Hlen; lia].
  - rewrite (strip_unfold backwards s), (strip_unfold backwards (JS.toLowerCase s)).
    destruct s as [|a s1]; [reflexivity|]. simpl in Hlen.
    change (JS.toLowerCase (String a s1)) with (String (JS.lowerAscii a) (JS.toLowerCase s1)).
    cbv iota. rewrite H1.
    destruct (JS.isWhiteSpace (String a EmptyString)); [apply IH; lia|].
    destruct s1 as [|b s2]; [reflexivity|]. simpl in Hlen.
    change (JS.toLowerCase (String b s2)) with (String (JS.lowerAscii b) (JS.toLowerCase s2)).
    cbv iota. rewrite H2.
    destruct (JS.isWhiteSpace (JS.charOf _ (String a (String b EmptyString))));
      [apply IH; lia|].
    destruct s2 as [|c s3]; [reflexivity|]. simpl in Hlen.
    change (JS.toLowerCase (String c s3)) with (String (JS.lowerAscii c) (JS.toLowerCase s3)).
    cbv iota. rewrite H3.
    destruct (JS.isWhiteSpace (JS.charOf _ _)); [apply IH; lia | reflexivity].
Qed.

Lemma strip_toLowerCase backwards s :
  JS.strip backwards (JS.toLowerCase s) = JS.toLowerCase (JS.strip backwards s).
Proof. now apply (strip_toLowerCase_bounded backwards (String.length s)). Qed.

Lemma toLowerCase_chars s :
  JS.toLowerCase s = string_of_list_ascii (map JS.lowerAscii (list_ascii_of_string s)).
Proof. induction s as [|a s IH]; simpl; [reflexivity | now rewrite IH]. Qed.

Lemma toLowerCase_reverse s :
  JS.reverse (JS.toLowerCase s) = JS.toLowerCase (JS.reverse s).
Proof.
  unfold JS.reverse. rewrite !toLowerCase_chars.
  now rewrite !list_ascii_of_string_of_list_ascii, map_rev.
Qed.

Lemma toLowerCase_trim s : JS.trim (JS.toLowerCase s) = JS.toLowerCase (JS.trim s).
Proof.
  unfold JS.trim, JS.trimEnd, JS.trimStart.
  now rewrite strip_toLowerCase, toLowerCase_reverse, strip_toLowerCase,
    toLowerCase_reverse.
Qed.

(** X7: the search does not tell the case of the letters A-Z in the query:
    two queries with the same lower-case form select the same contacts. *)
Theorem search_ignores_query_case cs q q' :
  JS.toLowerCase q = JS.toLowerCase q' ->
  filteredContacts cs q = filteredContacts cs q'.
Proof.
  intros Hsame. unfold filteredContacts.
  assert (Hblank : JS.truthy (JS.trim q) = JS.truthy (JS.trim q')).
  { rewrite <- (toLowerCase_truthy (JS.trim q)), <- (toLowerCase_truthy (JS.trim q')).
    now rewrite <- !toLowerCase_trim, Hsame. }
  now rewrite Hblank, Hsame.
Qed.

(** X7, at the initial contacts and the tag "AI". *)
Lemma search_case_witness :
  JS.toLowerCase "AI" = JS.toLowerCase "ai"
  /\ filteredContacts Sample.INITIAL_CONTACTS "AI"
     = filteredContacts Sample.INITIAL_CONTACTS "ai"
  /\ filteredContacts Sample.INITIAL_CONTACTS "ai" = [Sample.liMing].
Proof.
  split; [reflexivity|]. split; [|reflexivity].
  exact (search_ignores_query_case Sample.INITIAL_CONTACTS "AI" "ai" eq_refl).
Defined.

(** The contacts shown are contacts of the store, in the order of the
    store; a query of white space alone shows them all; otherwise exactly
    those are shown whose name, company or one of whose tags contains the
    lower-cased query once lower-cased itself. *)
Lemma search_selects_matching_contacts cs q :
  sublist (filteredContacts cs q) cs
  /\ (JS.trim q = EmptyString -> filteredContacts cs q = cs)
  /\ (JS.trim q <> EmptyString ->
      forall c, In c (filteredContacts cs q) <->
        In c cs /\ (JS.includes (JS.toLowerCase q) (JS.toLowerCase (name c)) = true
                    \/ JS.includes (JS.toLowerCase q) (JS.toLowerCase (company c)) = true
                    \/ exists t, In t (tags c)
                         /\ JS.includes (JS.toLowerCase q) (JS.toLowerCase t) = true)).
Proof.
  unfold filteredContacts. destruct (JS.trim q) as [|a r] eqn:Htrim; simpl.
  - split; [reflexivity|]. split; [reflexivity | congruence].
  - split; [apply sublist_filter|]. split; [discriminate|]. intros _ c.
    rewrite <- !list_elem_of_In, list_elem_of_filter. unfold matchesQuery.
    rewrite !orb_true_iff, existsb_exists. tauto.
Qed.

(** ** Deleting a contact *)

Lemma findById_filter_other i target cs :
  i <> target ->
  findById i (filter (fun c => id c ≠ target) cs) = findById i cs.
Proof.
  intros Hne. unfold findById. induction cs as [|c cs IH]; [reflexivity|].
  destruct (decide (id c = target)) as [Heq|Hkeep].
  - rewrite filter_cons_False by tauto. simpl.
    rewrite bool_decide_eq_false_2 by congruence. exact IH.
  - rewrite filter_cons_True by assumption. simpl.
    destruct (bool_decide (id c = i)); [reflexivity | exact IH].
Qed.

Lemma NoDup_ids_filter (P : Contact -> Prop) `{forall c, Decision (P c)} cs :
  NoDup (map id cs) -> NoDup (map id (filter P cs)).
Proof.
  induction cs as [|c cs IH]; intros Hnodup; [apply NoDup_nil_2|].
  simpl in Hnodup. apply NoDup_cons in Hnodup as [Hfresh Hnodup].
  destruct (decide (P c)).
  - rewrite filter_cons_True by assumption. simpl. apply NoDup_cons.
    split; [|now apply IH]. intros Hin. apply Hfresh.
    apply list_elem_of_In, in_map_iff in Hin as (c' & Hid & Hc').
    apply list_elem_of_In, list_elem_of_filter in Hc' as [_ Hc'].
    rewrite <- Hid. apply list_elem_of_In, in_map. now apply list_elem_of_In.
  - rewrite filter_cons_False by assumption. now apply IH.
Qed.

(** X8: confirming the deletion of a non-empty id removes every contact
    with that id and nothing else: the other contacts stay, unchanged and in
    order, unique ids stay unique, the selection is cleared when it was the
    deleted contact and otherwise still finds the same contact, and no link
    of the graph derived afterwards starts or ends at the deleted id. *)
Theorem delete_removes_the_contact st deleted :
  JS.truthy deleted = true ->
  let st' := fst (confirmDelete st (Some deleted)) in
  ~ In deleted (map id (contacts st'))
  /\ sublist (contacts st') (contacts st)
  /\ (forall c, In c (contacts st) -> id c <> deleted -> In c (contacts st'))
  /\ (NoDup (map id (contacts st)) -> NoDup (map id (contacts st')))
  /\ selectedContact st'
     = (if decide (selectedContactId st = Some deleted) then None else selectedContact st)
  /\ (forall l, In l (links (contacts st')) -> source l <> deleted /\ target l <> deleted)
  /\ snd (confirmDelete st (Some deleted)) = None.
Proof.
  intros Htarget st'. subst st'. unfold confirmDelete. rewrite Htarget. simpl.
  assert (Hgone : ~ In deleted (map id (filter (fun c => id c ≠ deleted) (contacts st)))).
  { rewrite in_map_iff. intros (c & Hid & Hc).
    apply list_elem_of_In, list_elem_of_filter in Hc as [Hne _]. contradiction. }
  split; [exact Hgone|]. split; [apply sublist_filter|]. split; [|split; [|split; [|split]]].
  - intros c Hc Hne. apply list_elem_of_In, list_elem_of_filter.
    split; [assumption | now apply list_elem_of_In].
  - apply NoDup_ids_filter.
  - unfold selectedContact. simpl.
    destruct (decide (selectedContactId st = Some deleted)) as [Hsel|Hsel].
    + now rewrite bool_decide_eq_true_2.
    + rewrite bool_decide_eq_false_2 by assumption.
      destruct (selectedContactId st) as [i|]; [|reflexivity]. simpl.
      apply findById_filter_other. congruence.
  - intros l Hl. apply link_ends_in_store in Hl as [Hs Ht].
    split; intros Heq; apply Hgone; congruence.
  - reflexivity.
Qed.

(** X8, at the initial contacts, the second being deleted while selected. *)
Lemma delete_witness :
  let st := Sample.state Sample.INITIAL_CONTACTS "2" in
  JS.truthy "2" = true
  /\ contacts (fst (confirmDelete st (Some "2"))) = [Sample.liMing; Sample.zhangWei]
  /\ selectedContact (fst (confirmDelete st (Some "2"))) = None
  /\ links (contacts (fst (confirmDelete st (Some "2")))) = [].
Proof.
  split; [reflexivity|]. split; [reflexivity|]. split; [|reflexivity].
  apply (delete_removes_the_contact (Sample.state Sample.INITIAL_CONTACTS "2") "2" eq_refl).
Defined.

(** ** Toggling a member of a set *)

Lemma elem_of_toggle x y (prev : gset string) :
  y ∈ toggle x prev <-> (if decide (y = x) then y ∉ prev else y ∈ prev).
Proof.
  unfold toggle. destruct (decide (x ∈ prev)) as [Hin|Hout].
  - rewrite elem_of_difference, elem_of_singleton.
    destruct (decide (y = x)) as [->|]; tauto.
  - rewrite elem_of_union, elem_of_singleton.
    destruct (decide (y = x)) as [->|]; tauto.
Qed.

Lemma toggle_toggle x (prev : gset string) : toggle x (toggle x prev) = prev.
Proof.
  apply set_eq. intros y. rewrite elem_of_toggle.
  destruct (decide (y = x)) as [->|Hne].
  - rewrite elem_of_toggle, decide_True by reflexivity.
    destruct (decide (x ∈ prev)); tauto.
  - now rewrite elem_of_toggle, decide_False.
Qed.

(** X9: clicking a contact in merge mode twice restores the selection; a
    click changes the membership of that contact's id and of no other, and
    so moves the size of the selection by exactly one. *)
Theorem merge_selection_toggles i (sel : gset string) :
  toggleMergeSelection i (toggleMergeSelection i sel) = sel
  /\ (i ∈ toggleMergeSelection i sel <-> i ∉ sel)
  /\ (forall j, j <> i -> (j ∈ toggleMergeSelection i sel <-> j ∈ sel))
  /\ size (toggleMergeSelection i sel)
     = (if decide (i ∈ sel) then size sel - 1 else size sel + 1).
Proof.
  unfold toggleMergeSelection. split; [apply toggle_toggle|]. split; [|split].
  - rewrite elem_of_toggle. now rewrite decide_True.
  - intros j Hne. rewrite elem_of_toggle. now rewrite decide_False.
  - unfold toggle. destruct (decide (i ∈ sel)) as [Hin|Hout].
    + rewrite size_difference, size_singleton; [reflexivity|].
      now apply singleton_subseteq_l.
    + rewrite size_union, size_singleton; [reflexivity|].
      now apply disjoint_singleton_r.
Qed.

(** ** Ignoring a source *)

Lemma notIgnored_toggle u (ignored : gset string) s :
  notIgnored (toggle u ignored) s = true <->
  (sr_url s = Some u /\ JS.truthy u = true /\ u ∈ ignored)
  \/ (sr_url s <> Some u /\ notIgnored ignored s = true).
Proof.
  unfold notIgnored. destruct (sr_url s) as [v|]; [|intuition discriminate].
  rewrite !andb_true_iff, !bool_decide_eq_true, elem_of_toggle.
  destruct (decide (v = u)) as [->|Hne].
  - split.
    + intros [Htruthy Hin]. left. split; [reflexivity|]. split; [assumption|].
      destruct (decide (u ∈ ignored)); tauto.
    + intros [(_ & Htruthy & Hin)|[Hne _]]; [tauto | congruence].
  - split.
    + intros [Htruthy Hout]. right. split; [congruence | tauto].
    + intros [(Heq & _)|[_ Hkeep]]; [congruence | tauto].
Qed.

(** X10: in the web mode, ticking a source off takes exactly the sources
    with that URL out of what is handed to the oracle as valid; ticking it
    on again hands over what was handed over before. *)
Theorem ignoring_a_source_filters_the_payload st results u :
  enrichMode st = WEB ->
  searchResults st = Some results ->
  exists before after,
    ctx_validSources (payloadOf st) = Some before
    /\ ctx_validSources (payloadOf (toggleSourceIgnore u st)) = Some after
    /\ (u ∉ ignoredSourceUrls st ->
        after = filter (fun s => sr_url s <> Some u) before)
    /\ (u ∈ ignoredSourceUrls st ->
        before = filter (fun s => sr_url s <> Some u) after)
    /\ payloadOf (toggleSourceIgnore u (toggleSourceIgnore u st)) = payloadOf st.
Proof.
  intros Hmode Hresults. unfold payloadOf. simpl. rewrite Hmode, Hresults. simpl.
  eexists. eexists. split; [reflexivity|]. split; [reflexivity|].
  split; [|split].
  - intros Hout. rewrite list_filter_filter. apply list_filter_iff. intros s.
    rewrite notIgnored_toggle. intuition congruence.
  - intros Hin. rewrite list_filter_filter. apply list_filter_iff. intros s.
    rewrite notIgnored_toggle. split.
    + intros Hkeep. assert (Hother : sr_url s <> Some u); [|tauto].
      intros Hurl. unfold notIgnored in Hkeep.
      rewrite Hurl in Hkeep. apply andb_true_iff in Hkeep as [_ Hkeep].
      now apply bool_decide_eq_true in Hkeep.
    + intros [Hurl [(Heq & _)|[_ Hkeep]]]; [contradiction | assumption].
  - now rewrite toggle_toggle.
Qed.

(** X10, at one source found and then ticked off. *)
Lemma ignoring_a_source_witness :
  let source := mkSearchResult "First" "Click to visit source"
                  (Some "https://example.com/li") "example.com" in
  let st := {| contacts := [Sample.li]; selectedContactId := Some "A";
               enrichMode := WEB; isSearching := false;
               searchResults := Some (mkSearchInfo "ok" [source]);
               ignoredSourceUrls := ∅; manualText := EmptyString;
               manualImages := []; showRelModal := false;
               relTargetId := EmptyString; relType := EmptyString; alerts := [] |} in
  enrichMode st = WEB
  /\ searchResults st = Some (mkSearchInfo "ok" [source])
  /\ exists before after,
      ctx_validSources (payloadOf st) = Some before
      /\ ctx_validSources
           (payloadOf (toggleSourceIgnore "https://example.com/li" st)) = Some after
      /\ before = [source] /\ after = [].
Proof.
  split; [reflexivity|]. split; [reflexivity|].
  edestruct (ignoring_a_source_filters_the_payload
               {| contacts := [Sample.li]; selectedContactId := Some "A";
                  enrichMode := WEB; isSearching := false;
                  searchResults := Some (mkSearchInfo "ok"
                    [mkSearchResult "First" "Click to visit source"
                       (Some "https://example.com/li") "example.com"]);
                  ignoredSourceUrls := ∅; manualText := EmptyString;
                  manualImages := []; showRelModal := false;
                  relTargetId := EmptyString; relType := EmptyString; alerts := [] |}
               _ "https://example.com/li" eq_refl eq_refl)
    as (before & after & Hbefore & Hafter & _).
  exists before, after. split; [exact Hbefore|]. split; [exact Hafter|].
  split; [now injection Hbefore as <- | now injection Hafter as <-].
Defined.

(** ** Searching the web *)

Lemma mapM_Returns {A B} (f : A -> Outcome B) (l : list A) : forall ys,
  mapM f l = Returns ys -> Forall2 (fun x y => f x = Returns y) l ys.
Proof.
  induction l as [|x l IH]; intros ys Hmap.
  - injection Hmap as <-. constructor.
  - simpl in Hmap. destruct (f x) as [y|e] eqn:Hfx; [|discriminate].
    simpl in Hmap. destruct (mapM f l) as [k|e]; [|discriminate].
    injection Hmap as <-. constructor; [assumption | now apply IH].
Qed.

Lemma filter_all {A} (P : A -> Prop) `{forall x, Decision (P x)} (l : list A) :
  (forall x, In x l -> P x) -> filter P l = l.
Proof.
  induction l as [|x l IH]; intros Hall; [reflexivity|].
  rewrite filter_cons_True by (apply Hall; now left).
  f_equal. apply IH. intros y Hy. apply Hall. now right.
Qed.

Section SearchAction.
Context `{Host}.

Lemma toSearchResult_url chunk s :
  hasUri chunk = true -> toSearchResult chunk = Returns s ->
  exists u, sr_url s = Some u /\ JS.truthy u = true.
Proof.
  unfold hasUri, toSearchResult. destruct (chunkUri chunk) as [u|]; [|discriminate].
  intros Htruthy Hs. simpl in Hs. destruct (URL_hostname u); [|discriminate].
  injection Hs as <-. now exists u.
Qed.

(** Every source a search returns carries a non-empty URL. *)
Lemma searched_sources_have_urls n c call info s :
  searchPersonInfo n c call = Returns info -> In s (si_sources info) ->
  exists u, sr_url s = Some u /\ JS.truthy u = true.
Proof.
  unfold searchPersonInfo. destruct call as [e|response]; [discriminate|].
  destruct (mapM _ _) as [sources|e] eqn:Hmap; [|discriminate].
  intros Hinfo Hs. injection Hinfo as <-. simpl in Hs.
  apply uniqueSources_last, last_filter_In in Hs as [Hs _].
  apply mapM_Returns in Hmap.
  apply list_elem_of_In in Hs.
  destruct (proj1 (list_elem_of_lookup _ _) Hs) as [i Hi].
  destruct (Forall2_lookup_r _ _ _ _ _ Hmap Hi) as (chunk & Hchunk & Hto).
  apply list_elem_of_lookup_2, list_elem_of_filter in Hchunk as [Huri _].
  now apply (toSearchResult_url chunk).
Qed.

(** X11: a search leaves the contacts alone, empties the set of ignored
    sources and switches to the web mode; when it succeeds, the payload of
    an enrichment started right after it carries the summary and every
    source the search returned; when it fails, earlier results are gone,
    the payload is empty and the failure is announced. *)
Theorem search_resets_the_evidence st selected call :
  selectedContact st = Some selected ->
  let st' := fst (handleSearchInfo st call) in
  contacts st' = contacts st
  /\ ignoredSourceUrls st' = ∅
  /\ enrichMode st' = WEB
  /\ match searchPersonInfo (name selected) (company selected) call with
     | Returns info =>
         searchResults st' = Some info
         /\ payloadOf st'
            = mkContext (Some (si_summary info)) (Some (si_sources info)) None None
         /\ snd (handleSearchInfo st call) = None
     | Throws _ =>
         searchResults st' = None
         /\ payloadOf st' = mkContext None None None None
         /\ snd (handleSearchInfo st call) = Some NoticeSearchFailed
     end.
Proof.
  intros Hsel st'. subst st'. unfold handleSearchInfo. rewrite Hsel. simpl.
  split; [reflexivity|]. split; [reflexivity|]. split; [reflexivity|].
  destruct (searchPersonInfo _ _ call) as [info|e] eqn:Hsearch.
  - split; [reflexivity|]. split; [|reflexivity].
    unfold payloadOf. simpl. f_equal. f_equal. apply filter_all.
    intros s Hs. destruct (searched_sources_have_urls _ _ _ _ _ Hsearch Hs)
      as (u & Hurl & Htruthy).
    unfold notIgnored. rewrite Hurl, Htruthy. simpl.
    apply bool_decide_eq_true. apply not_elem_of_empty.
  - now repeat split.
Qed.

End SearchAction.

(** X11, at a search for the scenario's Li that finds one page twice. *)
Lemma search_action_witness :
  let st := Sample.state [Sample.li] "A" in
  let call := Resolves (mkResponse (Some "ok")
                (Some [Sample.chunk "https://example.com/li" "First";
                       Sample.chunk "https://example.com/li" "Second"])) in
  selectedContact st = Some Sample.li
  /\ ignoredSourceUrls (fst (handleSearchInfo (H := Sample.host) st call)) = ∅
  /\ enrichMode (fst (handleSearchInfo (H := Sample.host) st call)) = WEB.
Proof.
  split; [reflexivity|].
  destruct (search_resets_the_evidence (H := Sample.host)
              (Sample.state [Sample.li] "A") Sample.li
              (Resolves (mkResponse (Some "ok")
                 (Some [Sample.chunk "https://example.com/li" "First";
                        Sample.chunk "https://example.com/li" "Second"])))
              eq_refl) as (_ & Hignored & Hmode & _).
  split; [exact Hignored | exact Hmode].
Defined.

(** ** Saving an extracted contact *)

Lemma findById_snoc i cs c :
  findById i (cs ++ [c])
  = match findById i cs with
    | Some found => Some found
    | None => if decide (id c = i) then Some c else None
    end.
Proof.
  unfold findById. induction cs as [|x cs IH]; simpl.
  - destruct (decide (id c = i)) as [Heq|Hne].
    + now rewrite bool_decide_eq_true_2.
    + now rewrite bool_decide_eq_false_2.
  - destruct (bool_decide (id x = i)); [reflexivity | exact IH].
Qed.

Lemma namedPreview_name dialog preview :
  namedPreview dialog = Some preview ->
  exists n, p_name preview = Some n /\ JS.truthy n = true
            /\ previewContact dialog = Some preview.
Proof.
  unfold namedPreview. destruct (previewContact dialog) as [p|]; [|discriminate].
  destruct (p_name p) as [n|] eqn:Hname; [|discriminate].
  destruct (JS.truthy n) eqn:Htruthy; [|discriminate].
  intros Heq. injection Heq as <-. now exists n.
Qed.

(** X12: saving a preview that has a name appends one contact to the store
    and changes no other; the new contact bears the preview's name (the
    "Unknown" default is never used), has the clock reading as id whatever
    id the preview held, and empty notes; it is the selected contact
    afterwards unless a stored contact already had that id, in which case
    the selection shows that older contact; unique ids stay unique when the
    clock reading is fresh. *)
Theorem saved_contact_is_appended now nowAvatar st dialog viewMode preview :
  namedPreview dialog = Some preview ->
  let saved := handleSaveContact now nowAvatar st dialog viewMode in
  let st' := fst (fst saved) in
  let newContact := newContactOf preview now nowAvatar in
  contacts st' = contacts st ++ [newContact]
  /\ p_name preview = Some (name newContact)
  /\ id newContact = now /\ notes newContact = EmptyString
  /\ selectedContact st'
     = match findById now (contacts st) with
       | Some older => Some older
       | None => Some newContact
       end
  /\ (NoDup (map id (contacts st)) -> ~ In now (map id (contacts st)) ->
      NoDup (map id (contacts st')))
  /\ previewContact (snd (fst saved)) = None
  /\ snd saved = LIST.
Proof.
  intros Hnamed saved st' newContact. subst saved st' newContact.
  unfold handleSaveContact. rewrite Hnamed. simpl.
  apply namedPreview_name in Hnamed as (n & Hname & Htruthy & _).
  split; [reflexivity|]. split.
  { rewrite Hname. simpl. now rewrite Htruthy. }
  split; [reflexivity|]. split; [reflexivity|]. split; [|split].
  - unfold selectedContact. simpl. rewrite findById_snoc. simpl.
    now rewrite decide_True.
  - intros Hnodup Hfresh. rewrite map_app. simpl. apply NoDup_app.
    split; [assumption|]. split; [|apply NoDup_singleton].
    intros i Hi Hnow. apply list_elem_of_singleton in Hnow. subst i.
    now apply list_elem_of_In in Hi.
  - now split.
Qed.

(** X12, at the preview of a person called Zhao saved into the initial
    contacts. *)
Lemma saved_contact_witness :
  let preview := mkPartial (Some "oracle-id") (Some "Zhao") None None None None None
                           None None None None None in
  let dialog := mkAddDialog true "Zhao is an engineer" false (Some preview) in
  let saved := handleSaveContact "1700000000000" "1700000000001"
                 (Sample.state Sample.INITIAL_CONTACTS "1") dialog GRAPH in
  namedPreview dialog = Some preview
  /\ map id (contacts (fst (fst saved))) = ["1"; "2"; "3"; "1700000000000"]
  /\ selectedContact (fst (fst saved))
     = Some (newContactOf preview "1700000000000" "1700000000001").
Proof.
  split; [reflexivity|]. split; [reflexivity|].
  apply (saved_contact_is_appended "1700000000000" "1700000000001"
           (Sample.state Sample.INITIAL_CONTACTS "1")
           (mkAddDialog true "Zhao is an engineer" false
              (Some (mkPartial (Some "oracle-id") (Some "Zhao") None None None None None
                               None None None None None)))
           GRAPH _ eq_refl).
Defined.

(** ** Removing an attached image *)

Lemma remove_at_offset (prev : list string) : forall k t,
  map snd (filter (fun entry => fst entry ≠ t) (imap (fun i x => (k + i, x)) prev))
  = if decide (t < k) then prev else take (t - k) prev ++ drop (S (t - k)) prev.
Proof.
  induction prev as [|x prev IH]; intros k t.
  - simpl. destruct (decide (t < k)); [reflexivity|]. now rewrite take_nil.
  - rewrite imap_cons.
    rewrite (imap_ext _ (fun i x => (S k + i, x)) prev)
      by (intros i y _; simpl; f_equal; lia).
    destruct (decide (k + 0 = t)) as [Heq|Hne].
    + rewrite filter_cons_False by (simpl; lia).
      etransitivity; [exact (IH (S k) t)|].
      rewrite decide_True by lia. rewrite decide_False by lia.
      replace (t - k) with 0 by lia. reflexivity.
    + rewrite filter_cons_True by (simpl; lia).
      change (map snd (?e :: ?l)) with (snd e :: map snd l). simpl snd.
      etransitivity; [apply f_equal; exact (IH (S k) t)|].
      destruct (decide (t < k)) as [Hlt|Hge].
      * now rewrite decide_True by lia.
      * rewrite decide_False by lia.
        replace (t - k) with (S (t - S k)) by lia. reflexivity.
Qed.

(** X13: removing the image at an index drops exactly that image and keeps
    the others in order; an index past the end removes nothing. *)
Theorem remove_image_drops_one index prev :
  handleRemoveImage index prev = take index prev ++ drop (S index) prev
  /\ (index < length prev -> length (handleRemoveImage index prev) = length prev - 1)
  /\ (length prev <= index -> handleRemoveImage index prev = prev).
Proof.
  assert (Heq : handleRemoveImage index prev = take index prev ++ drop (S index) prev).
  { unfold handleRemoveImage.
    etransitivity; [exact (remove_at_offset prev 0 index)|].
    destruct (decide (index < 0)); [lia|]. now rewrite Nat.sub_0_r. }
  split; [exact Heq|]. split.
  - intros Hin. rewrite Heq, length_app, length_take, length_drop. lia.
  - intros Hout. rewrite Heq, take_ge, drop_ge by lia. apply app_nil_r.
Qed.

(** ** The image data sent to the oracle *)

Lemma split_whole s :
  ~ In ","%char (list_ascii_of_string s) -> Str.split "," s = [s].
Proof.
  induction s as [|a s IH]; intros Hno; [reflexivity|]. simpl in *.
  rewrite decide_False by (intros ->; tauto). rewrite IH by tauto. reflexivity.
Qed.

Lemma split_at_first header rest :
  ~ In ","%char (list_ascii_of_string header) ->
  Str.split "," (header ++ String "," rest)%string = header :: Str.split "," rest.
Proof.
  induction header as [|a header IH]; intros Hno.
  - reflexivity.
  - simpl in *. rewrite decide_False by (intros ->; tauto).
    rewrite IH by tauto. reflexivity.
Qed.

(** X14: the data URL of an image, [header,payload] with no comma in the
    header and a non-empty payload without comma, is sent as its payload;
    a text without comma is sent as it is. *)
Theorem image_data_is_the_payload header payload :
  ~ In ","%char (list_ascii_of_string header) ->
  ~ In ","%char (list_ascii_of_string payload) ->
  cleanData payload = payload
  /\ (payload <> EmptyString ->
      cleanData (header ++ String "," payload)%string = payload).
Proof.
  intros Hheader Hpayload. unfold cleanData. split.
  - now rewrite split_whole.
  - intros Hne. rewrite split_at_first, split_whole by assumption. simpl.
    now destruct payload.
Qed.

(** X14, at a JPEG data URL. *)
Lemma image_data_witness :
  cleanData "data:image/jpeg;base64,QUJD" = "QUJD" /\ cleanData "QUJD" = "QUJD".
Proof.
  assert (Hheader : ~ In ","%char (list_ascii_of_string "data:image/jpeg;base64")).
  { simpl. intuition discriminate. }
  assert (Hpayload : ~ In ","%char (list_ascii_of_string "QUJD")).
  { simpl. intuition discriminate. }
  destruct (image_data_is_the_payload "data:image/jpeg;base64" "QUJD" Hheader Hpayload)
    as [Hwhole Hcut].
  split; [apply Hcut; discriminate | exact Hwhole].
Defined.

(** ** Confirming a merge *)

Lemma filter_eq_cons_inv {A} (P : A -> Prop) `{forall x, Decision (P x)}
    (l : list A) (x : A) (xs : list A) :
  filter P l = x :: xs ->
  exists before after,
    l = before ++ x :: after /\ (forall y, In y before -> ~ P y) /\ P x.
Proof.
  induction l as [|y l IH]; intros Hfilter; [discriminate|].
  destruct (decide (P y)) as [Hy|Hy].
  - rewrite filter_cons_True in Hfilter by assumption. injection Hfilter as -> _.
    exists [], l. split; [reflexivity|]. split; [intros ? [] | assumption].
  - rewrite filter_cons_False in Hfilter by assumption.
    destruct (IH Hfilter) as (before & after & -> & Hbefore & Hx).
    exists (y :: before), after. split; [reflexivity|]. split; [|assumption].
    intros z [<-|Hz]; [assumption | now apply Hbefore].
Qed.

Lemma NoDup_objects cs : NoDup (map id cs) -> NoDup (map p_id (map asObject cs)).
Proof.
  induction cs as [|c cs IH]; intros Hnodup; [apply NoDup_nil_2|].
  simpl in *. apply NoDup_cons in Hnodup as [Hfresh Hnodup].
  apply NoDup_cons. split; [|now apply IH].
  intros Hin. apply Hfresh.
  apply list_elem_of_In, in_map_iff in Hin as (o & Hid & Ho).
  apply in_map_iff in Ho as (c' & <- & Hc'). simpl in Hid. injection Hid as Hid.
  rewrite <- Hid. now apply list_elem_of_In, in_map.
Qed.

Section MergeAction.
Context `{Host}.

Lemma merge_returns_survivor first rest call :
  rest = [] \/ (exists response, call = Resolves response) ->
  exists merged,
    mergeContactsSmartly (first :: rest) call = Returns merged
    /\ p_id merged = Some (id first).
Proof.
  destruct rest as [|second rest].
  - intros _. now exists (asObject first).
  - intros [Hnil|[response ->]]; [discriminate|].
    rewrite merge_resolved. destruct (JSON_parse _); eexists; split; reflexivity.
Qed.

(** X15: a confirmed merge puts the merged profile first and keeps after it
    exactly the contacts whose ids were not selected, in their order; the
    merged profile carries the id of the selected contact that stands
    earliest in the store, whatever the order of selection, and that id
    becomes the selection; unique ids stay unique; the merge mode is left
    with an empty selection. *)
Theorem confirmed_merge_keeps_earliest st ui call first rest :
  2 <= size (mergeSelection ui) ->
  filter (fun c => id c ∈ mergeSelection ui) (contacts st) = first :: rest ->
  rest = [] \/ (exists response, call = Resolves response) ->
  let r := handleConfirmMerge st ui call in
  exists merged,
    mergedContacts r
    = merged :: map asObject
                  (filter (fun c => id c ∉ mergeSelection ui) (contacts st))
    /\ p_id merged = Some (id first)
    /\ mergedSelectedId r = Some (id first)
    /\ (exists before after,
          contacts st = before ++ first :: after
          /\ forall c, In c before -> id c ∉ mergeSelection ui)
    /\ (NoDup (map id (contacts st)) -> NoDup (map p_id (mergedContacts r)))
    /\ mergedUi r = mkMergeUi false ∅ false
    /\ mergedNotice r = Some NoticeMerged.
Proof.
  intros Hsize Hchosen Hcall r. subst r. unfold handleConfirmMerge.
  rewrite (proj2 (Nat.ltb_ge _ _)) by lia. rewrite Hchosen.
  destruct (merge_returns_survivor first rest call Hcall) as (merged & -> & Hid).
  simpl. exists merged. split; [reflexivity|]. split; [assumption|].
  split; [assumption|].
  destruct (filter_eq_cons_inv _ _ _ _ Hchosen) as (before & after & Hsplit & Hbefore & Hfirst).
  split; [now exists before, after|]. split; [|now split].
  intros Hnodup. apply NoDup_cons. split.
  - rewrite Hid. intros Hin.
    apply list_elem_of_In, in_map_iff in Hin as (o & Ho & Hin).
    apply in_map_iff in Hin as (c & <- & Hc). simpl in Ho. injection Ho as Ho.
    apply list_elem_of_In, list_elem_of_filter in Hc as [Hout _].
    apply Hout. now rewrite Ho.
  - apply NoDup_objects. now apply NoDup_ids_filter.
Qed.

(** X16: no merge takes place when fewer than two ids are selected, when no
    selected id is the id of a stored contact, or when the oracle call for
    two or more contacts is rejected: the contacts and the selection stay as
    they are, and in the last two cases the failure is announced and the
    merge mode stays on with its selection. *)
Theorem refused_merge_changes_nothing st ui call :
  let r := handleConfirmMerge st ui call in
  let chosen := filter (fun c => id c ∈ mergeSelection ui) (contacts st) in
  (size (mergeSelection ui) < 2 ->
   r = mkMergeResult (map asObject (contacts st)) (selectedContactId st) ui None)
  /\ (2 <= size (mergeSelection ui) ->
      chosen = [] \/ (2 <= length chosen /\ exists e, call = Rejects e) ->
      r = mkMergeResult (map asObject (contacts st)) (selectedContactId st)
            (mkMergeUi (isMergeMode ui) (mergeSelection ui) false)
            (Some NoticeMergeFailed)).
Proof.
  intros r chosen. subst r chosen. unfold handleConfirmMerge.
  destruct (Nat.ltb_spec (size (mergeSelection ui)) 2) as [Hfew|Hmany].
  - split; [reflexivity | lia].
  - split; [lia|]. intros _ [Hnil|[Hlen [e ->]]].
    + now rewrite Hnil.
    + destruct (filter _ (contacts st)) as [|first [|second rest]];
        [simpl in Hlen; lia | simpl in Hlen; lia | reflexivity].
Qed.

End MergeAction.

(** X15, at the initial contacts with the third and the first selected. *)
Lemma confirmed_merge_witness :
  let st := Sample.state Sample.INITIAL_CONTACTS "3" in
  let ui := mkMergeUi true {["3"; "1"]} false in
  let r := handleConfirmMerge (H := Sample.host) st ui (Sample.response "{}") in
  2 <= size (mergeSelection ui)
  /\ filter (fun c => id c ∈ mergeSelection ui) (contacts st)
     = [Sample.liMing; Sample.zhangWei]
  /\ mergedSelectedId r = Some "1"
  /\ map p_id (mergedContacts r) = [Some "1"; Some "2"].
Proof.
  assert (Hsize : 2 <= size ({["3"; "1"]} : gset string)).
  { rewrite size_union, !size_singleton; [lia|].
    apply disjoint_singleton_l, not_elem_of_singleton. discriminate. }
  split; [exact Hsize|]. split; [reflexivity|]. split; [|reflexivity].
  destruct (confirmed_merge_keeps_earliest (H := Sample.host)
              (Sample.state Sample.INITIAL_CONTACTS "3")
              (mkMergeUi true {["3"; "1"]} false) (Sample.response "{}")
              Sample.liMing [Sample.zhangWei] Hsize eq_refl
              (or_intror (ex_intro _ (mkResponse (Some "{}") None) eq_refl)))
    as (merged & _ & _ & Hselected & _).
  exact Hselected.
Defined.

(** X16, at a rejected call for the first two of the initial contacts. *)
Lemma refused_merge_witness :
  let st := Sample.state Sample.INITIAL_CONTACTS "3" in
  let ui := mkMergeUi true {["1"; "2"]} false in
  2 <= size (mergeSelection ui)
  /\ handleConfirmMerge (H := Sample.host) st ui (Rejects (ApiError "quota exceeded"))
     = mkMergeResult (map asObject Sample.INITIAL_CONTACTS) (Some "3")
         (mkMergeUi true {["1"; "2"]} false) (Some NoticeMergeFailed).
Proof.
  assert (Hsize : 2 <= size ({["1"; "2"]} : gset string)).
  { rewrite size_union, !size_singleton; [lia|].
    apply disjoint_singleton_l, not_elem_of_singleton. discriminate. }
  split; [exact Hsize|].
  apply (proj2 (refused_merge_changes_nothing (H := Sample.host)
                  (Sample.state Sample.INITIAL_CONTACTS "3")
                  (mkMergeUi true {["1"; "2"]} false)
                  (Rejects (ApiError "quota exceeded"))) Hsize).
  right. split; [apply Nat.leb_le; reflexivity|].
  now exists (ApiError "quota exceeded").
Defined.

(** ** Replies wrapped in a code fence *)

Lemma chars_app a b :
  list_ascii_of_string (a ++ b)%string = list_ascii_of_string a ++ list_ascii_of_string b.
Proof. induction a as [|ch a IH]; simpl; [reflexivity | now rewrite IH]. Qed.

Lemma string_of_chars_app x y :
  string_of_list_ascii (x ++ y) = (string_of_list_ascii x ++ string_of_list_ascii y)%string.
Proof. induction x as [|ch x IH]; simpl; [reflexivity | now rewrite IH]. Qed.

Lemma reverse_app a b : JS.reverse (a ++ b) = (JS.reverse b ++ JS.reverse a)%string.
Proof. unfold JS.reverse. now rewrite chars_app, rev_app_distr, string_of_chars_app. Qed.

Lemma reverse_involutive s : JS.reverse (JS.reverse s) = s.
Proof.
  unfold JS.reverse.
  now rewrite list_ascii_of_string_of_list_ascii, rev_involutive,
    string_of_list_ascii_of_string.
Qed.

Lemma chars_length s : length (list_ascii_of_string s) = String.length s.
Proof. induction s as [|ch s IH]; simpl; [reflexivity | now rewrite IH]. Qed.

Lemma reverse_length s : String.length (JS.reverse s) = String.length s.
Proof.
  unfold JS.reverse.
  now rewrite <- chars_length, list_ascii_of_string_of_list_ascii, length_rev, chars_length.
Qed.

(** A text that [trim] leaves alone has no white space at either end. *)
Lemma trim_fixed body :
  JS.trim body = body ->
  JS.strip false body = body /\ JS.strip true (JS.reverse body) = JS.reverse body.
Proof.
  intros Htrim. unfold JS.trim, JS.trimEnd, JS.trimStart in Htrim.
  assert (Hstart : JS.strip false body = body).
  { apply strip_same_length.
    pose proof (strip_shrinks false body) as Hle.
    pose proof (strip_shrinks true (JS.reverse (JS.strip false body))) as Hle'.
    pose proof (f_equal String.length Htrim) as Hlen.
    rewrite reverse_length in Hle', Hlen. lia. }
  split; [exact Hstart|]. rewrite Hstart in Htrim.
  rewrite <- Htrim at 2. now rewrite reverse_involutive.
Qed.

(** A line feed after a text that begins with no white space does not make
    it begin with one. *)
Lemma strip_before_line_feed body :
  JS.strip false body = body -> body <> EmptyString ->
  JS.strip false (body ++ String "010" EmptyString)
  = (body ++ String "010" EmptyString)%string.
Proof.
  intros Hfixed Hbody.
  rewrite (strip_unfold false body) in Hfixed.
  rewrite (strip_unfold false (body ++ String "010" EmptyString)).
  destruct body as [|a s1]; [congruence|].
  change (String a s1 ++ String "010" EmptyString)%string
    with (String a (s1 ++ String "010" EmptyString)).
  cbv iota.
  destruct (JS.isWhiteSpace (String a EmptyString)).
  { exfalso. pose proof (strip_shrinks false s1) as Hle.
    apply (f_equal String.length) in Hfixed. simpl in Hfixed. lia. }
  destruct s1 as [|b s2].
  { simpl. unfold JS.charOf. now rewrite line_feed_second. }
  change (String b s2 ++ String "010" EmptyString)%string
    with (String b (s2 ++ String "010" EmptyString)).
  cbv iota.
  destruct (JS.isWhiteSpace (JS.charOf false (String a (String b EmptyString)))).
  { exfalso. pose proof (strip_shrinks false s2) as Hle.
    apply (f_equal String.length) in Hfixed. simpl in Hfixed. lia. }
  destruct s2 as [|c s3].
  { simpl. unfold JS.charOf. now rewrite line_feed_third. }
  change (String c s3 ++ String "010" EmptyString)%string
    with (String c (s3 ++ String "010" EmptyString)).
  cbv iota.
  destruct (JS.isWhiteSpace (JS.charOf false (String a (String b (String c EmptyString)))));
    [|reflexivity].
  exfalso. pose proof (strip_shrinks false s3) as Hle.
  apply (f_equal String.length) in Hfixed. simpl in Hfixed. lia.
Qed.

Lemma strip_line_feed backwards s :
  JS.strip backwards (String "010" s) = JS.strip backwards s.
Proof. now rewrite (strip_unfold backwards (String "010" s)). Qed.

Lemma trim_between_line_feeds body :
  JS.trim body = body ->
  JS.trim (String "010" (body ++ String "010" EmptyString)) = body.
Proof.
  intros Htrim. destruct (trim_fixed body Htrim) as [Hstart Hend].
  unfold JS.trim, JS.trimStart. rewrite strip_line_feed.
  destruct body as [|a r]; [reflexivity|].
  rewrite strip_before_line_feed by (assumption || discriminate).
  unfold JS.trimEnd. rewrite reverse_app.
  change (JS.reverse (String "010" EmptyString)) with (String "010" EmptyString).
  change (String "010" EmptyString ++ ?s)%string with (String "010" s).
  now rewrite strip_line_feed, Hend, reverse_involutive.
Qed.

Lemma removeAll_closing_fence t :
  ~ In "`"%char (list_ascii_of_string t) ->
  JS.removeAll "```" (t ++ "```") = t.
Proof.
  unfold JS.removeAll. induction t as [|a t IH]; intros Hno; [reflexivity|].
  simpl in Hno. simpl. rewrite decide_False by (intros Heq; apply Hno; now left). simpl.
  rewrite IH by tauto. reflexivity.
Qed.

Lemma removeAll_tag_absent t :
  ~ In "`"%char (list_ascii_of_string t) ->
  JS.removeAll "```json" (t ++ "```") = (t ++ "```")%string.
Proof.
  unfold JS.removeAll. induction t as [|a t IH]; intros Hno; [reflexivity|].
  simpl in Hno. simpl. rewrite decide_False by (intros Heq; apply Hno; now left). simpl.
  rewrite IH by tauto. reflexivity.
Qed.

Lemma string_app_assoc a b c : ((a ++ b) ++ c = a ++ b ++ c)%string.
Proof.
  induction a as [|ch a IH]; [reflexivity|].
  change (String ch ((a ++ b) ++ c) = String ch (a ++ b ++ c))%string.
  now rewrite IH.
Qed.

(** The cleaning of a reply recovers a text from its fence. *)
Lemma stripFences_fenced body :
  ~ In "`"%char (list_ascii_of_string body) ->
  JS.trim body = body ->
  stripFences (fenced body) = body.
Proof.
  intros Hno Htrim. unfold stripFences, fenced.
  set (inner := String "010" (body ++ String "010" EmptyString)).
  assert (Hinner : ~ In "`"%char (list_ascii_of_string inner)).
  { subst inner. simpl. rewrite chars_app, in_app_iff. simpl.
    intros [Heq|[Hin|[Heq|[]]]]; [discriminate | tauto | discriminate]. }
  assert (Hshape : (String "010" (body ++ String "010" "```") = inner ++ "```")%string).
  { subst inner.
    change (String "010" (body ++ String "010" "```")
            = String "010" ((body ++ String "010" EmptyString) ++ "```"))%string.
    now rewrite string_app_assoc. }
  assert (Htag : JS.removeAll "```json" ("```json" ++ String "010" (body ++ String "010" "```"))
                 = (inner ++ "```")%string).
  { rewrite Hshape. rewrite <- (removeAll_tag_absent inner Hinner) at 2. reflexivity. }
  rewrite Htag, removeAll_closing_fence by assumption.
  subst inner. now apply trim_between_line_feeds.
Qed.

Section Fences.
Context `{Host}.

(** X17: a reply that is a text in a [json] code fence is read as the text
    itself, when the text has no back quote and no white space at its ends:
    the enrichment applies the object parsed from the text, and so does the
    extraction when the input holds a URL; without a URL in the input the
    fence is not removed before parsing. *)
Theorem fenced_reply_is_unwrapped input current context response body o :
  ~ In "`"%char (list_ascii_of_string body) ->
  JS.trim body = body ->
  text response = Some (fenced body) ->
  JSON_parse body = Some o ->
  enrichContactProfile current context (Resolves response) = Returns (spread current o)
  /\ (Str.hasUrl input = true ->
      extractContactFromText input (Resolves response) = Returns o)
  /\ (Str.hasUrl input = false ->
      extractContactFromText input (Resolves response)
      = match JSON_parse (fenced body) with
        | Some other => Returns other
        | None => Throws (Error "AI 解析失败，请重试")
        end).
Proof.
  intros Hno Htrim Htext Hparse.
  assert (Hclean : stripFences (JS.orElse (text response) "{}") = body).
  { rewrite Htext. change (JS.orElse (Some (fenced body)) "{}") with (fenced body).
    now apply stripFences_fenced. }
  split; [|split].
  - unfold enrichContactProfile. now rewrite Hclean, Hparse.
  - intros Hurl. unfold extractContactFromText. now rewrite Hurl, Hclean, Hparse.
  - intros Hurl. unfold extractContactFromText. rewrite Hurl, Htext. reflexivity.
Qed.

End Fences.

(** X17, at the empty object in a fence, pasted with a link; a byte order
    mark before the object is stripped as well, and a scheme followed by an
    ideographic space is no link. *)
Lemma fenced_reply_witness :
  ~ In "`"%char (list_ascii_of_string "{}")
  /\ JS.trim "{}" = "{}"
  /\ JSON_parse (Host := Sample.host) "{}" = Some emptyObject
  /\ enrichContactProfile (H := Sample.host) Sample.li (mkContext None None None None)
       (Sample.response (fenced "{}")) = Returns (spread Sample.li emptyObject)
  /\ extractContactFromText (H := Sample.host) "see https://example.com/li"
       (Sample.response (fenced "{}")) = Returns emptyObject
  /\ stripFences (Utf8.encode 0xFEFF ++ "{}" ++ Utf8.encode 0xA0) = "{}"
  /\ Str.hasUrl ("http://" ++ Utf8.encode 0x3000) = false
  /\ Str.hasUrl "http://例" = true.
Proof.
  assert (Hno : ~ In "`"%char (list_ascii_of_string "{}")).
  { simpl. intuition discriminate. }
  split; [exact Hno|]. split; [reflexivity|]. split; [reflexivity|].
  destruct (fenced_reply_is_unwrapped (H := Sample.host) "see https://example.com/li"
              Sample.li (mkContext None None None None)
              (mkResponse (Some (fenced "{}")) None) "{}" emptyObject
              Hno eq_refl eq_refl eq_refl) as (Henrich & Hextract & _).
  split; [exact Henrich|]. split; [now apply Hextract|].
  repeat split; reflexivity.
Defined.

(** ** More on discovery *)

Section DiscoveryNames.
Context `{Host}.


End DiscoveryNames.


(** ** The selection and the graph after an enrichment *)

Lemma findById_replaced cs selected enriched stubs :
  findById (id selected) cs = Some selected ->
  id enriched = id selected ->
  findById (id selected)
    (map (fun c => if decide (id c = id enriched) then enriched else c) cs ++ stubs)
  = Some enriched.
Proof.
  intros Hfind Hid. unfold findById in *. induction cs as [|x cs IH]; [discriminate|].
  simpl in *. destruct (bool_decide (id x = id selected)) eqn:Hx.
  - apply bool_decide_eq_true in Hx. rewrite decide_True by congruence.
    now rewrite bool_decide_eq_true_2.
  - apply bool_decide_eq_false in Hx. rewrite decide_False by congruence.
    rewrite bool_decide_eq_false_2 by assumption. now apply IH.
Qed.

Lemma explicitLinks_intro cs src rel tgt :
  In rel (relatedPeople src) ->
  last (filter (fun c => name c = rp_name rel) cs) = Some tgt ->
  JS.truthy (id tgt) = true ->
  In (mkLink (id src) (id tgt) 2 (rp_relationship rel)) (explicitLinks (contactMap cs) src).
Proof.
  intros Hrel Hlast Hid. unfold explicitLinks. apply in_flat_map.
  exists rel. split; [assumption|].
  rewrite contactMap_lookup, Hlast. simpl. rewrite Hid. now left.
Qed.

Section AfterEnrichment.
Context `{Host}.

(** X19: the enriched profile keeps the id of the selected contact (as it
    does when the reply has no [id] key).  When the discovery runs to its
    end, the selection shows the enriched profile after the enrichment, a
    stored contact with another id is still stored, and every contact
    discovered in the call is linked in the graph, as "Origin Connection",
    to the contact the graph finds under the enriched profile's name,
    provided that contact's id is not empty.  When the discovery throws,
    the store is as before and the selection still shows the profile as it
    was. *)
Theorem enrichment_connects_the_discovered st selected enriched call :
  selectedContact st = Some selected ->
  enrichContactProfile selected (payloadOf st) call = Returns enriched ->
  id enriched = id selected ->
  let st' := handleEnrich st call in
  match discover (contacts st) enriched with
  | Returns found =>
      selectedContact st' = Some enriched
      /\ (forall c, In c (contacts st) -> id c <> id selected -> In c (contacts st'))
      /\ exists tgt,
           In tgt (contacts st') /\ name tgt = name enriched
           /\ (JS.truthy (id tgt) = true ->
               forall c, c ∈ found ->
                 In (mkLink (id c) (id tgt) 2 (Some "Origin Connection"))
                    (links (contacts st')))
  | Throws _ =>
      contacts st' = contacts st /\ selectedContact st' = Some selected
  end.
Proof.
  intros Hsel Henrich Hid st'.
  destruct (discover (contacts st) enriched) as [found|e] eqn:Hfound.
  2: { destruct (handleEnrich_thrown _ _ _ _ _ Hsel Henrich Hfound)
         as (Hcontacts & Hselected & _).
       split; [assumption|]. subst st'. unfold selectedContact in *.
       now rewrite Hselected, Hcontacts. }
  destruct (handleEnrich_returned _ _ _ _ _ Hsel Henrich Hfound)
    as (Hcontacts & Hselected & _).
  destruct (selectedContact_Some _ _ Hsel) as [Hin Hsid].
  assert (Hfind : findById (id selected) (contacts st) = Some selected).
  { unfold selectedContact in Hsel. now rewrite Hsid in Hsel. }
  subst st'. unfold applyEnrichment in Hcontacts.
  split; [|split].
  - unfold selectedContact. rewrite Hselected, Hsid, Hcontacts. simpl.
    now apply findById_replaced.
  - intros c Hc Hne. rewrite Hcontacts. apply in_or_app. left.
    apply in_map_iff. exists c. split; [|assumption].
    rewrite decide_False by congruence. reflexivity.
  - assert (Hstored : In enriched (contacts (handleEnrich st call))).
    { rewrite Hcontacts. apply in_or_app. left. apply in_map_iff.
      exists selected. split; [|assumption]. now rewrite decide_True. }
    destruct (last (filter (fun c => name c = name enriched)
                           (contacts (handleEnrich st call)))) as [tgt|] eqn:Hlast.
    + destruct (last_filter_In _ _ _ Hlast) as [Htgt Hname].
      exists tgt. split; [assumption|]. split; [assumption|].
      intros Htruthy c Hc.
      destruct (discover_shape _ _ _ _ Hfound Hc) as (rel & relationship & k & _ & _ & ->).
      unfold links. apply in_flat_map.
      exists (autoContact enriched (rp_name rel) relationship k). split.
      * rewrite Hcontacts. apply in_or_app. right. now apply list_elem_of_In.
      * apply in_or_app. left.
        apply (explicitLinks_intro _ (autoContact enriched (rp_name rel) relationship k)
                 (mkRelatedPerson (name enriched) (Some "Origin Connection")) tgt);
          [now left | exact Hlast | exact Htruthy].
    + exfalso. apply last_None in Hlast.
      apply list_elem_of_In in Hstored.
      assert (Hmember : enriched ∈ filter (fun c => name c = name enriched)
                                          (contacts (handleEnrich st call))).
      { apply list_elem_of_filter. now split. }
      rewrite Hlast in Hmember. now apply elem_of_nil in Hmember.
Qed.

End AfterEnrichment.

(** X19, at the scenario's Li enriched by a reply that names Zhang, with and
    without relationships. *)
Lemma enrichment_graph_witness :
  let st := Sample.state [Sample.li; Sample.wang] "A" in
  let st' := handleEnrich (H := Sample.host) st (Sample.response Sample.textTwoZhang) in
  let failed := handleEnrich (H := Sample.host) st (Sample.response Sample.textBareZhang) in
  selectedContact st = Some Sample.li
  /\ (name <$> selectedContact st') = Some "Li"
  /\ (relatedPeople <$> selectedContact st')
     = Some [Sample.zhangAdvisor; Sample.zhangMentor]
  /\ In (mkLink "auto-1700000000000-ak3x9w2p0" "A" 2 (Some "Origin Connection"))
        (links (contacts st'))
  /\ contacts failed = contacts st
  /\ selectedContact failed = Some Sample.li.
Proof.
  split; [reflexivity|].
  pose proof (enrichment_connects_the_discovered (H := Sample.host)
                (Sample.state [Sample.li; Sample.wang] "A") Sample.li _
                (Sample.response Sample.textTwoZhang) eq_refl eq_refl eq_refl)
    as (Hselected & _ & _).
  rewrite Hselected. split; [reflexivity|]. split; [reflexivity|].
  split; [do 3 right; now left|].
  exact (enrichment_connects_the_discovered (H := Sample.host)
           (Sample.state [Sample.li; Sample.wang] "A") Sample.li _
           (Sample.response Sample.textBareZhang) eq_refl eq_refl eq_refl).
Defined.

(** ** Adding a relation twice *)



(** ** From extraction to the store *)

Section ExtractThenSave.
Context `{Host}.


End ExtractThenSave.

